(** * Tag-driven double dispatch of the fuser IR
    (torch/csrc/jit/fuser/common/dispatch.cpp)

    The file embeds the nine dispatch templates ([Val::dispatch],
    [Expr::dispatch], [Statement::dispatch], their [const_dispatch] and
    [mutator_dispatch] counterparts), the two [ptr] adapters and the generic
    overloads of the base handler classes, and proves the properties the
    specification states about them.

    IR nodes live in a heap and are passed by address, as the C++ code passes
    [Val*], [Expr*] and [Statement*].  Handler objects live in an object
    store; a handler passed by value is a copy placed in a fresh slot of
    that store for the duration of the call.  Every call of a handler
    overload made by the dispatch code is appended to a call log, which is
    what the theorems observe. *)

From stdpp Require Import base option list gmap strings.

(** ** The tag model *)

(** Modelled from the spec: type.h is not among the sources.  The kind tag of
    a Val is one of the five enumerators the switch of [Val::dispatch] names;
    [unlisted] stands for any other value an object of the enumeration type
    can hold. *)
Module ValType.
Inductive t : Set :=
| IterDomain | TensorDomain | Tensor | TensorView | Scalar
| unlisted (raw : N).
End ValType.

(** Modelled from the spec: the secondary tag of a Scalar (type.h). *)
Module DataType.
Inductive t : Set :=
| Float | Int
| unlisted (raw : N).
End DataType.

(** Modelled from the spec: the kind tag of an Expr (type.h). *)
Module ExprType.
Inductive t : Set :=
| Split | Merge | Reorder | UnaryOp | BinaryOp | ForLoop | IfThenElse
| unlisted (raw : N).
End ExprType.

(** The static parameter types of the handler overloads: the thirteen
    concrete node classes the [static_cast]s of the file name, and the three
    abstract classes of the generic overloads. *)
Module Class.
Inductive concrete : Set :=
| IterDomain | TensorDomain | Tensor | TensorView | Float | Int
| Split | Merge | Reorder | UnaryOp | BinaryOp | ForLoop | IfThenElse.

Inductive t : Set :=
| Statement | Val | Expr
| Concrete (c : concrete).

#[global] Instance concrete_eq_dec : EqDecision concrete.
Proof. solve_decision. Defined.

#[global] Instance eq_dec : EqDecision t.
Proof. solve_decision. Defined.

(** Which side of the hierarchy a class lies on. *)
Definition is_concrete (c : t) : bool :=
  match c with Concrete _ => true | _ => false end.

Definition on_Expr_side (c : t) : bool :=
  match c with
  | Expr
  | Concrete (Split | Merge | Reorder | UnaryOp | BinaryOp | ForLoop | IfThenElse) =>
      true
  | _ => false
  end.
End Class.

(** Modelled from the spec: ir.h is not among the sources.  A node answers
    the two category tests and the three tag accessors the dispatch code
    calls; [contents] is the rest of its state, which the dispatch code
    never reads.  The two category answers are independent fields: their
    mutual exclusion is an invariant of the IR builder, not of this file. *)
Record Node : Type := mkNode {
  isVal : bool;
  isExpr : bool;
  getValType : ValType.t;
  getDataType : DataType.t;
  getExprType : ExprType.t;
  contents : list Z
}.

(** ** The call log *)

(** The three overload families: [handle(X* x)], [handle(const X* const x)] and
    [mutate(X* x)]. *)
Inductive Family : Set := Visit | ConstVisit | Mutate.

#[global] Instance Family_eq_dec : EqDecision Family.
Proof. solve_decision. Defined.

(** One call of a handler overload: its family, the static type of its
    parameter and the node address it received. *)
Record Call : Set := mkCall {
  family : Family;
  target : Class.t;
  node : N
}.

#[global] Instance Call_eq_dec : EqDecision Call.
Proof. solve_decision. Defined.

(** ** Outcomes *)

(** How an overload body ends: it returns, or it throws. *)
Inductive result (A : Type) : Type :=
| Normal (a : A)
| Raised (e : string).
Arguments Normal {A} a.
Arguments Raised {A} e.

(** How a dispatch ends.  [InternalAssert] is the failed
    [TORCH_INTERNAL_ASSERT(false, msg)] of the dispatch code itself;
    [Thrown] is an exception of a handler overload; [Fault] is the
    dereference of an address that holds no object, for which C++ defines no
    behaviour. *)
Inductive outcome (A : Type) : Type :=
| Returned (a : A)
| Thrown (e : string)
| InternalAssert (msg : string)
| Fault.
Arguments Returned {A} a.
Arguments Thrown {A} e.
Arguments InternalAssert {A} msg.
Arguments Fault {A}.

Definition outcome_of {A} (r : result A) : outcome A :=
  match r with
  | Normal a => Returned a
  | Raised e => Thrown e
  end.

Definition is_assert {A} (o : outcome A) : bool :=
  match o with InternalAssert _ => true | _ => false end.

Section Dispatch.

(** The fields of a handler object. *)
Context {HS : Type}.

(** ** The world *)

Record World : Type := mkWorld {
  heap : gmap N Node;      (* the IR nodes, by address *)
  objs : list HS;          (* the handler objects, by address *)
  calls : list Call        (* the overload calls made so far *)
}.

(** Computations of the dispatch code: they read and change the world, and
    keep the world of the moment they fail. *)
Definition M (A : Type) : Type := World -> outcome A * World.

Definition ret {A} (a : A) : M A := fun w => (Returned a, w).

Definition bind {A B} (m : M A) (k : A -> M B) : M B := fun w =>
  match m w with
  | (Returned a, w') => k a w'
  | (Thrown e, w') => (Thrown e, w')
  | (InternalAssert msg, w') => (InternalAssert msg, w')
  | (Fault, w') => (Fault, w')
  end.

Notation "x <- m ;; k" := (bind m (fun x => k))
  (at level 100, m at next level, right associativity).

(** Modelled from the spec: the macro is not among the sources.
    [TORCH_INTERNAL_ASSERT(false, msg)] is the fatal internal-invariant
    violation: the operation ends there, with the world as it is. *)
Definition TORCH_INTERNAL_ASSERT {A} (msg : string) : M A :=
  fun w => (InternalAssert msg, w).

(** [p->...]: the node at address [p]. *)
Definition load (p : N) : M Node := fun w =>
  match heap w !! p with
  | Some n => (Returned n, w)
  | None => (Fault, w)
  end.

(** ** Handlers *)

(** Modelled from the spec: dispatch.h, which declares the handler classes,
    is not among the sources.  A handler supplies one overload per concrete
    node kind.  The body of such an overload computes, from the handler
    object and the heap, a result, the handler object afterwards and the
    heap afterwards; it does not call back into the dispatch templates. *)
Definition overload (A : Type) : Type :=
  HS -> gmap N Node -> N -> result A * HS * gmap N Node.

(** The body of an overload taking [const X* const]: it reads the heap. *)
Definition const_overload : Type :=
  HS -> gmap N Node -> N -> result unit * HS.

Definition read_only (body : const_overload) : overload unit :=
  fun obj h p => let '(r, obj') := body obj h p in (r, obj', h).

(** The concrete-kind overloads of a handler class, one per node class. *)
Definition Overloads (A : Type) : Type := Class.concrete -> overload A.
Definition ConstOverloads : Type := Class.concrete -> const_overload.

(** The generic overloads of a handler class, [handle(Val* v)] and
    [handle(Expr* e)] (or [mutate]): member functions, called on the address
    of a handler object. *)
Record Generic (A : Type) : Type := mkGeneric {
  generic_Val : nat -> N -> M A;
  generic_Expr : nat -> N -> M A
}.
Arguments generic_Val {A} _ _ _.
Arguments generic_Expr {A} _ _ _.

(** [this->f(static_cast<C*>(p))] for a concrete class [C]: the call is
    logged, the body runs on the object at [this]. *)
Definition invoke {A} (f : Family) (c : Class.concrete) (body : overload A)
    (this : nat) (p : N) : M A := fun w =>
  match objs w !! this with
  | None => (Fault, w)
  | Some obj =>
      let '(r, obj', heap') := body obj (heap w) p in
      (outcome_of r,
       {| heap := heap';
          objs := <[this := obj']> (objs w);
          calls := calls w ++ [mkCall f (Class.Concrete c) p] |})
  end.

(** The world with one more call in the log. *)
Definition logged (c : Call) (w : World) : World :=
  {| heap := heap w; objs := objs w; calls := calls w ++ [c] |}.

(** [this->f(static_cast<Val*>(p))] and the like: a generic overload. *)
Definition invoke_generic {A} (f : Family) (c : Class.t)
    (body : nat -> N -> M A) (this : nat) (p : N) : M A := fun w =>
  body this p (logged (mkCall f c p) w).

(** ** Passing the handler *)

(** The handler argument of a dispatch template [template <typename T>
    ... (T handler, ...)]: an object, copied into the parameter ([T = H]), or
    the address of one ([T = H*]). *)
Inductive argument : Type :=
| Direct (obj : HS)
| Indirect (p : nat).

(** The parameter [handler] inside the callee: an object in a slot of its
    own, or a pointer. *)
Inductive parameter : Set :=
| Object (slot : nat)
| Pointer (p : nat).

(** [ptr]: the address of an object for [T& obj], the pointer itself for
    [T* obj]. *)
Definition ptr (handler : parameter) : nat :=
  match handler with
  | Object slot => slot
  | Pointer p => p
  end.

(** Entering and leaving a dispatch template: a [Direct] argument is copied
    into a fresh slot at the end of the object store, and the slot is
    released when the call ends. *)
Definition with_parameter {A} (a : argument) (body : parameter -> M A) : M A :=
  match a with
  | Indirect p => body (Pointer p)
  | Direct obj => fun w =>
      let slot := length (objs w) in
      let '(o, w') :=
        body (Object slot)
          {| heap := heap w; objs := objs w ++ [obj]; calls := calls w |} in
      (o, {| heap := heap w'; objs := take slot (objs w'); calls := calls w' |})
  end.

(** ** Visit *)

Definition Val_dispatch (T : Overloads unit) (handler : argument) (val : N)
    : M unit :=
  with_parameter handler (fun handler =>
    v <- load val ;;
    match getValType v with
    | ValType.IterDomain =>
        invoke Visit Class.IterDomain (T Class.IterDomain) (ptr handler) val
    | ValType.TensorDomain =>
        invoke Visit Class.TensorDomain (T Class.TensorDomain) (ptr handler) val
    | ValType.Tensor =>
        invoke Visit Class.Tensor (T Class.Tensor) (ptr handler) val
    | ValType.TensorView =>
        invoke Visit Class.TensorView (T Class.TensorView) (ptr handler) val
    | ValType.Scalar =>
        match getDataType v with
        | DataType.Float =>
            invoke Visit Class.Float (T Class.Float) (ptr handler) val
        | DataType.Int =>
            invoke Visit Class.Int (T Class.Int) (ptr handler) val
        | _ => TORCH_INTERNAL_ASSERT "Unknown valtype in dispatch!"
        end
    | _ => TORCH_INTERNAL_ASSERT "Unknown valtype in dispatch!"
    end).

Definition Expr_dispatch (T : Overloads unit) (handler : argument) (expr : N)
    : M unit :=
  with_parameter handler (fun handler =>
    e <- load expr ;;
    match getExprType e with
    | ExprType.Split =>
        invoke Visit Class.Split (T Class.Split) (ptr handler) expr
    | ExprType.Merge =>
        invoke Visit Class.Merge (T Class.Merge) (ptr handler) expr
    | ExprType.Reorder =>
        invoke Visit Class.Reorder (T Class.Reorder) (ptr handler) expr
    | ExprType.UnaryOp =>
        invoke Visit Class.UnaryOp (T Class.UnaryOp) (ptr handler) expr
    | ExprType.BinaryOp =>
        invoke Visit Class.BinaryOp (T Class.BinaryOp) (ptr handler) expr
    | ExprType.ForLoop =>
        invoke Visit Class.ForLoop (T Class.ForLoop) (ptr handler) expr
    | ExprType.IfThenElse =>
        invoke Visit Class.IfThenElse (T Class.IfThenElse) (ptr handler) expr
    | _ => TORCH_INTERNAL_ASSERT "Unknown exprtype in dispatch!"
    end).

Definition Statement_dispatch (T : Generic unit) (handler : argument)
    (stmt : N) : M unit :=
  with_parameter handler (fun handler =>
    s <- load stmt ;;
    if isVal s then
      invoke_generic Visit Class.Val (generic_Val T) (ptr handler) stmt
    else if isExpr s then
      invoke_generic Visit Class.Expr (generic_Expr T) (ptr handler) stmt
    else TORCH_INTERNAL_ASSERT "Unknown stmttype in dispatch!").

(** ** Const-Visit *)

Definition Val_const_dispatch (T : ConstOverloads) (handler : argument)
    (val : N) : M unit :=
  with_parameter handler (fun handler =>
    v <- load val ;;
    match getValType v with
    | ValType.IterDomain =>
        invoke ConstVisit Class.IterDomain (read_only (T Class.IterDomain))
          (ptr handler) val
    | ValType.TensorDomain =>
        invoke ConstVisit Class.TensorDomain (read_only (T Class.TensorDomain))
          (ptr handler) val
    | ValType.Tensor =>
        invoke ConstVisit Class.Tensor (read_only (T Class.Tensor))
          (ptr handler) val
    | ValType.TensorView =>
        invoke ConstVisit Class.TensorView (read_only (T Class.TensorView))
          (ptr handler) val
    | ValType.Scalar =>
        match getDataType v with
        | DataType.Float =>
            invoke ConstVisit Class.Float (read_only (T Class.Float))
              (ptr handler) val
        | DataType.Int =>
            invoke ConstVisit Class.Int (read_only (T Class.Int))
              (ptr handler) val
        | _ => TORCH_INTERNAL_ASSERT "Unknown valtype in dispatch!"
        end
    | _ => TORCH_INTERNAL_ASSERT "Unknown valtype in dispatch!"
    end).

Definition Expr_const_dispatch (T : ConstOverloads) (handler : argument)
    (expr : N) : M unit :=
  with_parameter handler (fun handler =>
    e <- load expr ;;
    match getExprType e with
    | ExprType.Split =>
        invoke ConstVisit Class.Split (read_only (T Class.Split))
          (ptr handler) expr
    | ExprType.Merge =>
        invoke ConstVisit Class.Merge (read_only (T Class.Merge))
          (ptr handler) expr
    | ExprType.Reorder =>
        invoke ConstVisit Class.Reorder (read_only (T Class.Reorder))
          (ptr handler) expr
    | ExprType.UnaryOp =>
        invoke ConstVisit Class.UnaryOp (read_only (T Class.UnaryOp))
          (ptr handler) expr
    | ExprType.BinaryOp =>
        invoke ConstVisit Class.BinaryOp (read_only (T Class.BinaryOp))
          (ptr handler) expr
    | ExprType.ForLoop =>
        invoke ConstVisit Class.ForLoop (read_only (T Class.ForLoop))
          (ptr handler) expr
    | ExprType.IfThenElse =>
        invoke ConstVisit Class.IfThenElse (read_only (T Class.IfThenElse))
          (ptr handler) expr
    | _ => TORCH_INTERNAL_ASSERT "Unknown exprtype in dispatch!"
    end).

Definition Statement_const_dispatch (T : Generic unit) (handler : argument)
    (stmt : N) : M unit :=
  with_parameter handler (fun handler =>
    s <- load stmt ;;
    if isVal s then
      invoke_generic ConstVisit Class.Val (generic_Val T) (ptr handler) stmt
    else if isExpr s then
      invoke_generic ConstVisit Class.Expr (generic_Expr T) (ptr handler) stmt
    else TORCH_INTERNAL_ASSERT "Unknown stmttype in dispatch!").

(** ** Mutate *)

(** A [Statement*] result is the address of a node. *)
Definition Val_mutator_dispatch (T : Overloads N) (mutator : argument)
    (val : N) : M N :=
  with_parameter mutator (fun mutator =>
    v <- load val ;;
    match getValType v with
    | ValType.IterDomain =>
        invoke Mutate Class.IterDomain (T Class.IterDomain) (ptr mutator) val
    | ValType.TensorDomain =>
        invoke Mutate Class.TensorDomain (T Class.TensorDomain) (ptr mutator) val
    | ValType.Tensor =>
        invoke Mutate Class.Tensor (T Class.Tensor) (ptr mutator) val
    | ValType.TensorView =>
        invoke Mutate Class.TensorView (T Class.TensorView) (ptr mutator) val
    | ValType.Scalar =>
        match getDataType v with
        | DataType.Float =>
            invoke Mutate Class.Float (T Class.Float) (ptr mutator) val
        | DataType.Int =>
            invoke Mutate Class.Int (T Class.Int) (ptr mutator) val
        | _ => TORCH_INTERNAL_ASSERT "Unknown valtype in dispatch!"
        end
    | _ => TORCH_INTERNAL_ASSERT "Unknown valtype in dispatch!"
    end).

(** The [IfThenElse] case casts to [ForLoop*], as the source does. *)
Definition Expr_mutator_dispatch (T : Overloads N) (mutator : argument)
    (expr : N) : M N :=
  with_parameter mutator (fun mutator =>
    e <- load expr ;;
    match getExprType e with
    | ExprType.Split =>
        invoke Mutate Class.Split (T Class.Split) (ptr mutator) expr
    | ExprType.Merge =>
        invoke Mutate Class.Merge (T Class.Merge) (ptr mutator) expr
    | ExprType.Reorder =>
        invoke Mutate Class.Reorder (T Class.Reorder) (ptr mutator) expr
    | ExprType.UnaryOp =>
        invoke Mutate Class.UnaryOp (T Class.UnaryOp) (ptr mutator) expr
    | ExprType.BinaryOp =>
        invoke Mutate Class.BinaryOp (T Class.BinaryOp) (ptr mutator) expr
    | ExprType.ForLoop =>
        invoke Mutate Class.ForLoop (T Class.ForLoop) (ptr mutator) expr
    | ExprType.IfThenElse =>
        invoke Mutate Class.ForLoop (T Class.ForLoop) (ptr mutator) expr
    | _ => TORCH_INTERNAL_ASSERT "Unknown exprtype in dispatch!"
    end).

Definition Statement_mutator_dispatch (T : Generic N) (mutator : argument)
    (stmt : N) : M N :=
  with_parameter mutator (fun mutator =>
    s <- load stmt ;;
    if isVal s then
      invoke_generic Mutate Class.Val (generic_Val T) (ptr mutator) stmt
    else if isExpr s then
      invoke_generic Mutate Class.Expr (generic_Expr T) (ptr mutator) stmt
    else TORCH_INTERNAL_ASSERT "Unknown stmttype in dispatch!").

(** ** The base handler classes

    Their generic overloads re-enter the dispatch templates with [this], a
    pointer.  A class is given by its concrete-kind overloads [T], which a
    subclass overrides.  The file defines the generic overloads of
    [OptOutDispatch], [OptInDispatch], [OptInConstDispatch] and
    [OptOutMutator]; it defines none for [OptInMutator]. *)

Definition OptOutDispatch_handle_Expr (T : Overloads unit) (this : nat)
    (e : N) : M unit :=
  Expr_dispatch T (Indirect this) e.

Definition OptOutDispatch_handle_Val (T : Overloads unit) (this : nat)
    (v : N) : M unit :=
  Val_dispatch T (Indirect this) v.

Definition OptOutDispatch (T : Overloads unit) : Generic unit :=
  {| generic_Val := OptOutDispatch_handle_Val T;
     generic_Expr := OptOutDispatch_handle_Expr T |}.

Definition OptOutDispatch_handle_Statement (T : Overloads unit) (this : nat)
    (s : N) : M unit :=
  Statement_dispatch (OptOutDispatch T) (Indirect this) s.

Definition OptInDispatch_handle_Expr (T : Overloads unit) (this : nat)
    (e : N) : M unit :=
  Expr_dispatch T (Indirect this) e.

Definition OptInDispatch_handle_Val (T : Overloads unit) (this : nat)
    (v : N) : M unit :=
  Val_dispatch T (Indirect this) v.

Definition OptInDispatch (T : Overloads unit) : Generic unit :=
  {| generic_Val := OptInDispatch_handle_Val T;
     generic_Expr := OptInDispatch_handle_Expr T |}.

Definition OptInDispatch_handle_Statement (T : Overloads unit) (this : nat)
    (s : N) : M unit :=
  Statement_dispatch (OptInDispatch T) (Indirect this) s.

Definition OptInConstDispatch_handle_Expr (T : ConstOverloads) (this : nat)
    (e : N) : M unit :=
  Expr_const_dispatch T (Indirect this) e.

Definition OptInConstDispatch_handle_Val (T : ConstOverloads) (this : nat)
    (v : N) : M unit :=
  Val_const_dispatch T (Indirect this) v.

Definition OptInConstDispatch (T : ConstOverloads) : Generic unit :=
  {| generic_Val := OptInConstDispatch_handle_Val T;
     generic_Expr := OptInConstDispatch_handle_Expr T |}.

Definition OptInConstDispatch_handle_Statement (T : ConstOverloads)
    (this : nat) (s : N) : M unit :=
  Statement_const_dispatch (OptInConstDispatch T) (Indirect this) s.

Definition OptOutMutator_mutate_Expr (T : Overloads N) (this : nat) (e : N)
    : M N :=
  Expr_mutator_dispatch T (Indirect this) e.

Definition OptOutMutator_mutate_Val (T : Overloads N) (this : nat) (v : N)
    : M N :=
  Val_mutator_dispatch T (Indirect this) v.

Definition OptOutMutator (T : Overloads N) : Generic N :=
  {| generic_Val := OptOutMutator_mutate_Val T;
     generic_Expr := OptOutMutator_mutate_Expr T |}.

Definition OptOutMutator_mutate_Statement (T : Overloads N) (this : nat)
    (s : N) : M N :=
  Statement_mutator_dispatch (OptOutMutator T) (Indirect this) s.

(** ** Reference notions of the specification *)

(** The concrete kind of a Val according to the data model: the class its
    kind tag and, for a Scalar, its secondary tag identify, if they identify
    one.  This is the reference the switches are compared with; the code
    does not use it. *)
Definition Val_kind (v : Node) : option Class.concrete :=
  match getValType v with
  | ValType.IterDomain => Some Class.IterDomain
  | ValType.TensorDomain => Some Class.TensorDomain
  | ValType.Tensor => Some Class.Tensor
  | ValType.TensorView => Some Class.TensorView
  | ValType.Scalar =>
      match getDataType v with
      | DataType.Float => Some Class.Float
      | DataType.Int => Some Class.Int
      | DataType.unlisted _ => None
      end
  | ValType.unlisted _ => None
  end.

(** The concrete kind of an Expr according to the data model. *)
Definition Expr_kind (e : Node) : option Class.concrete :=
  match getExprType e with
  | ExprType.Split => Some Class.Split
  | ExprType.Merge => Some Class.Merge
  | ExprType.Reorder => Some Class.Reorder
  | ExprType.UnaryOp => Some Class.UnaryOp
  | ExprType.BinaryOp => Some Class.BinaryOp
  | ExprType.ForLoop => Some Class.ForLoop
  | ExprType.IfThenElse => Some Class.IfThenElse
  | ExprType.unlisted _ => None
  end.

(** The mutate overload the switch of [Expr::mutator_dispatch] calls for an
    Expr of kind [c]: the class its case casts to. *)
Definition mutate_overload_called (c : Class.concrete) : Class.concrete :=
  match c with
  | Class.IfThenElse => Class.ForLoop
  | _ => c
  end.

(** The handler object an argument denotes, given the object store. *)
Definition arg_object (l : list HS) (a : argument) : option HS :=
  match a with
  | Direct obj => Some obj
  | Indirect p => l !! p
  end.

(** Where the handler object is left after the call: a copy passed by value
    is gone with the call, an object passed by address is updated in
    place. *)
Definition arg_update (a : argument) (obj' : HS) (l : list HS) : list HS :=
  match a with
  | Direct _ => l
  | Indirect p => <[p := obj']> l
  end.

(** The run that consists of one call, and one only, of the overload [body]
    for class [c] in family [f], on the handler object [obj], with the node
    address [p]: the outcome is that of the body, the heap is the one the
    body leaves, and the log grows by this call. *)
Definition one_call {A} (f : Family) (c : Class.concrete) (body : overload A)
    (a : argument) (obj : HS) (p : N) (w : World) : outcome A * World :=
  let '(r, obj', heap') := body obj (heap w) p in
  (outcome_of r,
   {| heap := heap';
      objs := arg_update a obj' (objs w);
      calls := calls w ++ [mkCall f (Class.Concrete c) p] |}).

(** The effect of a dispatch that selects the overload with [sel] and fails
    with [msg] when [sel] selects none, as a function of the heap and the
    object store: outcome, heap and object store afterwards, calls made. *)
Definition route {A} (f : Family) (T : Overloads A)
    (sel : Node -> option Class.concrete) (msg : string)
    (a : argument) (p : N) (h : gmap N Node) (l : list HS)
    : outcome A * gmap N Node * list HS * list Call :=
  match h !! p with
  | None => (Fault, h, l, [])
  | Some v =>
      match sel v with
      | None => (InternalAssert msg, h, l, [])
      | Some c =>
          match arg_object l a with
          | None => (Fault, h, l, [])
          | Some obj =>
              let '(r, obj', h') := T c obj h p in
              (outcome_of r, h', arg_update a obj' l,
               [mkCall f (Class.Concrete c) p])
          end
      end
  end.

(** An effect applied to a world. *)
Definition commit {A} (w : World)
    (e : outcome A * gmap N Node * list HS * list Call) : outcome A * World :=
  let '(o, h', l', new) := e in
  (o, {| heap := h'; objs := l'; calls := calls w ++ new |}).

(** The calls a run added to the log. *)
Definition new_calls (w w' : World) : list Call :=
  drop (length (calls w)) (calls w').

(** The calls of concrete-kind overloads in a log. *)
Definition concrete_calls (l : list Call) : list Call :=
  filter (fun c => Class.is_concrete (target c) = true) l.

(** ** How two runs are compared *)

(** Two runs have the same observable effect: the same outcome (for Mutate,
    the same Statement returned), the same heap, the same handler objects,
    and the same calls of concrete-kind overloads with the same nodes. *)
Definition same_effect {A} (r1 r2 : outcome A * World) : Prop :=
  r1.1 = r2.1 /\
  heap r1.2 = heap r2.2 /\
  objs r1.2 = objs r2.2 /\
  concrete_calls (calls r1.2) = concrete_calls (calls r2.2).

(** Two runs make the same calls, with the same nodes, have the same outcome
    and leave the same heap.  The handler objects are left out. *)
Definition same_calls_and_result {A} (r1 r2 : outcome A * World) : Prop :=
  r1.1 = r2.1 /\
  heap r1.2 = heap r2.2 /\
  calls r1.2 = calls r2.2.

(** A run from [w] left the heap as it was and called overloads of the
    [handle(const X* const x)] family only. *)
Definition read_only_run {A} (w : World) (r : outcome A * World) : Prop :=
  heap r.2 = heap w /\
  exists new,
    calls r.2 = calls w ++ new /\
    Forall (fun c => family c = ConstVisit) new.

(** The handler overload that was called ran to its end, by a return or by
    an exception of its own. *)
Definition completed {A} (o : outcome A) : bool :=
  match o with
  | Returned _ | Thrown _ => true
  | InternalAssert _ | Fault => false
  end.

(** A run from [w] is a dispatch chain of bounded depth: at most one call
    of a generic overload for Val or Expr, then either exactly one call of
    a concrete-kind overload, which ran to its end, or the internal
    assertion and no such call.  No call is to the Statement-level
    overload. *)
Definition bounded_chain {A} (w : World) (r : outcome A * World) : Prop :=
  exists generic concrete,
    calls r.2 = calls w ++ generic ++ concrete /\
    length generic <= 1 /\
    Forall (fun c => target c = Class.Val \/ target c = Class.Expr) generic /\
    Forall (fun c => Class.is_concrete (target c) = true) concrete /\
    Forall (fun c => target c <> Class.Statement) (generic ++ concrete) /\
    ((completed r.1 = true /\ length concrete = 1) \/
     (is_assert r.1 = true /\ concrete = [])).

(** A run from [w] took the Val path in family [f] for the node at [p]: its
    first call is the generic overload for Val, and no later call is to
    the generic overload for Expr or to the overload of an Expr class. *)
Definition Val_path {A} (f : Family) (p : N) (w : World)
    (r : outcome A * World) : Prop :=
  exists rest,
    calls r.2 = calls w ++ mkCall f Class.Val p :: rest /\
    Forall (fun c => Class.on_Expr_side (target c) = false) rest.

(** Two nodes carry equal tags. *)
Definition same_tags (n1 n2 : Node) : Prop :=
  isVal n1 = isVal n2 /\
  isExpr n1 = isExpr n2 /\
  getValType n1 = getValType n2 /\
  (getValType n1 = ValType.Scalar -> getDataType n1 = getDataType n2) /\
  getExprType n1 = getExprType n2.

(** The overloads a run from [w] called, in order, without the nodes they
    were called with. *)
Definition overloads_called {A} (w : World) (r : outcome A * World)
    : list (Family * Class.t) :=
  map (fun c => (family c, target c)) (new_calls w r.2).

(** The overloads a concrete-level dispatch in family [f] calls for a node
    of kind [k]: the one for that kind, or none when there is no kind. *)
Definition called_for (f : Family) (k : option Class.concrete)
    : list (Family * Class.t) :=
  match k with
  | Some c => [(f, Class.Concrete c)]
  | None => []
  end.

End Dispatch.

Arguments World : clear implicits.
Arguments M : clear implicits.
Arguments overload : clear implicits.
Arguments const_overload : clear implicits.
Arguments Overloads : clear implicits.
Arguments ConstOverloads : clear implicits.
Arguments Generic : clear implicits.
Arguments argument : clear implicits.
Arguments generic_Val {HS A} _ _ _.
Arguments generic_Expr {HS A} _ _ _.

(** ** Sample handlers and worlds

    Handlers whose object is the list of the overloads that ran, used to
    evaluate the dispatch code on concrete nodes. *)
Module Sample.

Definition code (c : Class.concrete) : N :=
  match c with
  | Class.IterDomain => 1 | Class.TensorDomain => 2 | Class.Tensor => 3
  | Class.TensorView => 4 | Class.Float => 5 | Class.Int => 6
  | Class.Split => 7 | Class.Merge => 8 | Class.Reorder => 9
  | Class.UnaryOp => 10 | Class.BinaryOp => 11 | Class.ForLoop => 12
  | Class.IfThenElse => 13
  end%N.

(** A visitor: each overload notes its class in the handler object. *)
Definition recorder : Overloads (list N) unit :=
  fun c obj h p => (Normal tt, obj ++ [code c], h).

(** A read-only visitor. *)
Definition reader : ConstOverloads (list N) :=
  fun c obj h p => (Normal tt, obj ++ [code c]).

(** A mutator: the overload for class [c] notes its class and returns, as
    the replacement of node [p], the address [100 * code c + p], where it
    puts a copy of the node. *)
Definition renamer : Overloads (list N) N :=
  fun c obj h p =>
    let q := (100 * code c + p)%N in
    (Normal q, obj ++ [code c],
     match h !! p with Some n => <[q := n]> h | None => h end).

Definition a_Float : Node :=
  {| isVal := true; isExpr := false;
     getValType := ValType.Scalar; getDataType := DataType.Float;
     getExprType := ExprType.unlisted 0; contents := [3%Z] |}.

Definition a_ForLoop : Node :=
  {| isVal := false; isExpr := true;
     getValType := ValType.unlisted 0; getDataType := DataType.unlisted 0;
     getExprType := ExprType.ForLoop; contents := [] |}.

Definition an_IfThenElse : Node :=
  {| isVal := false; isExpr := true;
     getValType := ValType.unlisted 0; getDataType := DataType.unlisted 0;
     getExprType := ExprType.IfThenElse; contents := [] |}.

(** A Val whose kind tag is outside the enumeration. *)
Definition a_stray_Val : Node :=
  {| isVal := true; isExpr := false;
     getValType := ValType.unlisted 7; getDataType := DataType.Float;
     getExprType := ExprType.unlisted 0; contents := [] |}.

(** A node that answers yes to both category tests. *)
Definition a_hybrid : Node :=
  {| isVal := true; isExpr := true;
     getValType := ValType.Tensor; getDataType := DataType.unlisted 0;
     getExprType := ExprType.Merge; contents := [] |}.

(** A node that answers no to both. *)
Definition an_orphan : Node :=
  {| isVal := false; isExpr := false;
     getValType := ValType.Tensor; getDataType := DataType.Float;
     getExprType := ExprType.Merge; contents := [] |}.

Definition nodes : gmap N Node :=
  <[1%N := a_Float]> (<[2%N := a_ForLoop]> (<[3%N := an_IfThenElse]>
  (<[4%N := a_stray_Val]> (<[5%N := a_hybrid]> (<[6%N := an_orphan]> ∅))))).

(** One handler object, at address 0, that has noted nothing yet. *)
Definition world : World (list N) :=
  {| heap := nodes; objs := [[]]; calls := [] |}.

(** A second Float, with other contents, in a world of its own that has two
    handler objects and a call in its log already. *)
Definition another_Float : Node :=
  {| isVal := true; isExpr := false;
     getValType := ValType.Scalar; getDataType := DataType.Float;
     getExprType := ExprType.unlisted 0; contents := [8%Z; 9%Z] |}.

Definition other_world : World (list N) :=
  {| heap := <[9%N := another_Float]> ∅;
     objs := [[1%N; 2%N]; [3%N]];
     calls := [mkCall Mutate Class.Expr 0%N] |}.

End Sample.

(** A visitor and a mutator none of whose overloads is implemented: each
    one throws, leaving the handler object and the heap as they are. *)
Module Unimplemented.

Definition visitor : Overloads (list N) unit :=
  fun c obj h p => (Raised "Handle not overriden.", obj, h).

Definition mutator : Overloads (list N) N :=
  fun c obj h p => (Raised "Mutate not overriden.", obj, h).

End Unimplemented.

(** ** Handler classes and the two ways of passing a handler *)

(** Modelled from the spec: dispatch.h, which declares the handler classes,
    is not among the sources.  The templates are instantiated at the base
    classes only, and the handlers in use are of classes derived from them,
    which override concrete-kind overloads.  A handler class as the
    templates meet it is two tables of the concrete-kind overloads:
    [instantiated], those of the class the template is instantiated at, and
    [dynamic], those of the class of the handler object.  They are the same
    table for a handler of the instantiated class itself. *)
Record HandlerClass (Table : Type) : Type := mkHandlerClass {
  instantiated : Table;
  dynamic : Table
}.
Arguments instantiated {Table} _.
Arguments dynamic {Table} _.

(** The overloads that run.  A handler passed by value is copied into a
    parameter of the instantiated class, a handler of a derived class
    being cut down to its base part, so the overloads of the instantiated
    class run; through a pointer the overloads of the object's own class
    run. *)
Definition overloads_run {HS Table} (C : HandlerClass Table)
    (a : argument HS) : Table :=
  match a with
  | Direct _ => instantiated C
  | Indirect _ => dynamic C
  end.

(** Modelled from the spec: the concrete-kind overloads of the base class
    [OptOutMutator] are not among the sources.  An opt-out mutator that
    overrides nothing passes the node through: each overload returns the
    node it was given and changes nothing. *)
Definition OptOutMutator_defaults {HS} : Overloads HS N :=
  fun c obj h p => (Normal p, obj, h).

(** What a call does to the handler objects [l] of the caller, given how
    the handler was passed: by value nothing; by address the store keeps
    its size and changes at the address passed at most. *)
Definition touches_only {HS} (a : argument HS) (l l' : list HS) : Prop :=
  match a with
  | Direct _ => l' = l
  | Indirect q =>
      length l' = length l /\
      forall q', q' <> q -> l' !! q' = l !! q'
  end.

(** The run with the handler object passed by value and the run with its
    address [q] passed, both from [w], agree up to the handler object: they
    make the same calls with the same nodes, have the same outcome and
    leave the same heap; the first leaves the handler objects of the
    caller as they were, the second changes the object at [q] at most. *)
Definition agree_up_to_the_handler_object {HS A} (q : nat) (w : World HS)
    (by_value by_address : outcome A * World HS) : Prop :=
  same_calls_and_result by_value by_address /\
  objs by_value.2 = objs w /\
  length (objs by_address.2) = length (objs w) /\
  (forall q', q' <> q -> objs by_address.2 !! q' = objs w !! q').

Module SampleClass.

(** A mutator of a class derived from [OptOutMutator] that overrides every
    overload with those of [Sample.renamer]. *)
Definition derived_mutator : HandlerClass (Overloads (list N) N) :=
  {| instantiated := OptOutMutator_defaults; dynamic := Sample.renamer |}.

(** A handler of the instantiated class itself, with overloads [T]. *)
Definition plain {Table} (T : Table) : HandlerClass Table :=
  {| instantiated := T; dynamic := T |}.

End SampleClass.

Section Properties.

Context {HS : Type}.
Implicit Types (w : World HS) (a handler : argument HS).

Notation "x <- m ;; k" := (bind m (fun x => k))
  (at level 100, m at next level, right associativity).

(** ** Basic facts about the plumbing *)

Lemma take_snoc_insert (l : list HS) (x y : HS) :
  take (length l) (<[length l := y]> (l ++ [x])) = l.
Proof.
  rewrite take_insert_ge by lia.
  rewrite take_app_length. reflexivity.
Qed.

Lemma lookup_snoc (l : list HS) (x : HS) : (l ++ [x]) !! length l = Some x.
Proof. rewrite lookup_app_r by lia. rewrite Nat.sub_diag. reflexivity. Qed.

Lemma with_parameter_assert {A} a (msg : string) w :
  with_parameter a (fun _ => TORCH_INTERNAL_ASSERT (A := A) msg) w
  = (InternalAssert msg, w).
Proof.
  destruct a as [obj|p]; destruct w as [h l c]; cbn.
  - rewrite take_app_length. reflexivity.
  - reflexivity.
Qed.

Lemma with_parameter_invoke {A} f c (body : overload HS A) a obj p w :
  arg_object (objs w) a = Some obj ->
  with_parameter a (fun prm => invoke f c body (ptr prm) p) w
  = one_call f c body a obj p w.
Proof.
  intros Hobj. destruct a as [o|q]; cbn in Hobj.
  - injection Hobj as ->. unfold one_call, invoke. cbn.
    rewrite lookup_snoc.
    destruct (body obj (heap w) p) as [[r obj'] heap']. cbn.
    rewrite take_snoc_insert. reflexivity.
  - unfold one_call, invoke. cbn. rewrite Hobj.
    destruct (body obj (heap w) p) as [[r obj'] heap']. reflexivity.
Qed.

Lemma with_parameter_load {A} (K : Node -> parameter -> M HS A) a p v w :
  heap w !! p = Some v ->
  with_parameter a (fun prm => x <- load p ;; K x prm) w
  = with_parameter a (K v) w.
Proof.
  intros Hp. destruct a as [o|q]; cbn; unfold bind, load; cbn; rewrite Hp;
    reflexivity.
Qed.

Lemma with_parameter_fault {A} (K : Node -> parameter -> M HS A) a p w :
  heap w !! p = None ->
  with_parameter a (fun prm => x <- load p ;; K x prm) w = (Fault, w).
Proof.
  intros Hp. destruct a as [o|q]; destruct w as [h l c];
    unfold with_parameter, bind, load; cbn [heap objs calls] in *;
    rewrite Hp; [|reflexivity].
  cbn [heap objs calls]. rewrite take_app_length. reflexivity.
Qed.

Lemma commit_nothing {A} (o : outcome A) w :
  commit w (o, heap w, objs w, []) = (o, w).
Proof. destruct w as [h l c]. cbn. rewrite app_nil_r. reflexivity. Qed.

Lemma one_call_commit {A} f c (body : overload HS A) a obj p w :
  one_call f c body a obj p w
  = commit w (let '(r, obj', h') := body obj (heap w) p in
              (outcome_of r, h', arg_update a obj' (objs w),
               [mkCall f (Class.Concrete c) p])).
Proof.
  unfold one_call. destruct (body obj (heap w) p) as [[r obj'] h'].
  reflexivity.
Qed.

Lemma with_parameter_dangling {A} f c (body : overload HS A) q p w :
  objs w !! q = None ->
  with_parameter (Indirect q) (fun prm => invoke f c body (ptr prm) p) w
  = (Fault, w).
Proof. intros Hq. cbn. unfold invoke. rewrite Hq. reflexivity. Qed.

(** ** What each switch does, case by case *)

(** The effect of a call site. *)
Lemma call_site {A} f (T : Overloads HS A) sel msg a p w v c :
  heap w !! p = Some v -> sel v = Some c ->
  with_parameter a (fun prm => invoke f c (T c) (ptr prm) p) w
  = commit w (route f T sel msg a p (heap w) (objs w)).
Proof.
  intros Hp Hsel. unfold route. rewrite Hp, Hsel.
  destruct (arg_object (objs w) a) as [obj|] eqn:Hobj.
  - rewrite (with_parameter_invoke _ _ _ _ obj) by exact Hobj.
    apply one_call_commit.
  - destruct a as [o|q]; [discriminate|].
    rewrite with_parameter_dangling by exact Hobj.
    symmetry. apply commit_nothing.
Qed.

(** The effect of the assertion after the switch. *)
Lemma assert_site {A} f (T : Overloads HS A) sel msg a p w v :
  heap w !! p = Some v -> sel v = None ->
  with_parameter a (fun _ => TORCH_INTERNAL_ASSERT (A := A) msg) w
  = commit w (route f T sel msg a p (heap w) (objs w)).
Proof.
  intros Hp Hsel. unfold route. rewrite Hp, Hsel.
  rewrite with_parameter_assert. symmetry. apply commit_nothing.
Qed.

(** The effect of dereferencing an address that holds no node. *)
Lemma fault_site {A} f (T : Overloads HS A) sel msg a p w
    (K : Node -> parameter -> M HS A) :
  heap w !! p = None ->
  with_parameter a (fun prm => x <- load p ;; K x prm) w
  = commit w (route f T sel msg a p (heap w) (objs w)).
Proof.
  intros Hp. unfold route. rewrite Hp.
  rewrite with_parameter_fault by exact Hp. symmetry. apply commit_nothing.
Qed.

(** Settle a concrete-level dispatch template against [route]: load the
    node, go through the cases of the switch, and close each one with the
    lemma of its call site or of the assertion. *)
Ltac settle_switch T w p v Hp :=
  destruct (heap w !! p) as [v|] eqn:Hp;
  [ erewrite with_parameter_load by exact Hp; cbv beta;
    destruct v as [isV isE [] [] [] cont];
    cbn [getValType getDataType getExprType];
    first [ eapply (call_site _ T); [exact Hp | reflexivity]
          | eapply (assert_site _ T); [exact Hp | reflexivity] ]
  | eapply fault_site; exact Hp ].

Lemma Val_dispatch_route (T : Overloads HS unit) a p w :
  Val_dispatch T a p w
  = commit w (route Visit T Val_kind "Unknown valtype in dispatch!"
                a p (heap w) (objs w)).
Proof. unfold Val_dispatch. settle_switch T w p v Hp. Qed.

Lemma Expr_dispatch_route (T : Overloads HS unit) a p w :
  Expr_dispatch T a p w
  = commit w (route Visit T Expr_kind "Unknown exprtype in dispatch!"
                a p (heap w) (objs w)).
Proof. unfold Expr_dispatch. settle_switch T w p e Hp. Qed.

Lemma Val_const_dispatch_route (T : ConstOverloads HS) a p w :
  Val_const_dispatch T a p w
  = commit w (route ConstVisit (fun c => read_only (T c)) Val_kind
                "Unknown valtype in dispatch!" a p (heap w) (objs w)).
Proof.
  unfold Val_const_dispatch.
  settle_switch (fun c => read_only (T c)) w p v Hp.
Qed.

Lemma Expr_const_dispatch_route (T : ConstOverloads HS) a p w :
  Expr_const_dispatch T a p w
  = commit w (route ConstVisit (fun c => read_only (T c)) Expr_kind
                "Unknown exprtype in dispatch!" a p (heap w) (objs w)).
Proof.
  unfold Expr_const_dispatch.
  settle_switch (fun c => read_only (T c)) w p e Hp.
Qed.

Lemma Val_mutator_dispatch_route (T : Overloads HS N) a p w :
  Val_mutator_dispatch T a p w
  = commit w (route Mutate T Val_kind "Unknown valtype in dispatch!"
                a p (heap w) (objs w)).
Proof. unfold Val_mutator_dispatch. settle_switch T w p v Hp. Qed.

Lemma Expr_mutator_dispatch_route (T : Overloads HS N) a p w :
  Expr_mutator_dispatch T a p w
  = commit w (route Mutate T
                (fun e => mutate_overload_called <$> Expr_kind e)
                "Unknown exprtype in dispatch!" a p (heap w) (objs w)).
Proof. unfold Expr_mutator_dispatch. settle_switch T w p e Hp. Qed.

(** ** The Statement-level templates *)

(** The three Statement-level templates have one shape: a category test,
    then the generic overload of the handler for that category. *)
Lemma Statement_dispatch_unfold (T : Generic HS unit) a p w s :
  heap w !! p = Some s ->
  Statement_dispatch T a p w
  = if isVal s then
      with_parameter a (fun prm =>
        invoke_generic Visit Class.Val (generic_Val T) (ptr prm) p) w
    else if isExpr s then
      with_parameter a (fun prm =>
        invoke_generic Visit Class.Expr (generic_Expr T) (ptr prm) p) w
    else (InternalAssert "Unknown stmttype in dispatch!", w).
Proof.
  intros Hp. unfold Statement_dispatch.
  erewrite with_parameter_load by exact Hp. cbv beta.
  destruct (isVal s); [reflexivity|].
  destruct (isExpr s); [reflexivity|]. apply with_parameter_assert.
Qed.

Lemma Statement_const_dispatch_unfold (T : Generic HS unit) a p w s :
  heap w !! p = Some s ->
  Statement_const_dispatch T a p w
  = if isVal s then
      with_parameter a (fun prm =>
        invoke_generic ConstVisit Class.Val (generic_Val T) (ptr prm) p) w
    else if isExpr s then
      with_parameter a (fun prm =>
        invoke_generic ConstVisit Class.Expr (generic_Expr T) (ptr prm) p) w
    else (InternalAssert "Unknown stmttype in dispatch!", w).
Proof.
  intros Hp. unfold Statement_const_dispatch.
  erewrite with_parameter_load by exact Hp. cbv beta.
  destruct (isVal s); [reflexivity|].
  destruct (isExpr s); [reflexivity|]. apply with_parameter_assert.
Qed.

Lemma Statement_mutator_dispatch_unfold (T : Generic HS N) a p w s :
  heap w !! p = Some s ->
  Statement_mutator_dispatch T a p w
  = if isVal s then
      with_parameter a (fun prm =>
        invoke_generic Mutate Class.Val (generic_Val T) (ptr prm) p) w
    else if isExpr s then
      with_parameter a (fun prm =>
        invoke_generic Mutate Class.Expr (generic_Expr T) (ptr prm) p) w
    else (InternalAssert "Unknown stmttype in dispatch!", w).
Proof.
  intros Hp. unfold Statement_mutator_dispatch.
  erewrite with_parameter_load by exact Hp. cbv beta.
  destruct (isVal s); [reflexivity|].
  destruct (isExpr s); [reflexivity|]. apply with_parameter_assert.
Qed.

(** A generic overload of a base class re-enters a concrete-level template
    with [this]; seen from the Statement-level template, that is the
    concrete-level template called with the same argument, after the call
    of the generic overload has been logged. *)
Lemma via_OptOutDispatch_handle_Val (T : Overloads HS unit) a p w :
  with_parameter a (fun prm =>
    invoke_generic Visit Class.Val (OptOutDispatch_handle_Val T) (ptr prm) p) w
  = Val_dispatch T a p (logged (mkCall Visit Class.Val p) w).
Proof. destruct a; reflexivity. Qed.

Lemma via_OptOutDispatch_handle_Expr (T : Overloads HS unit) a p w :
  with_parameter a (fun prm =>
    invoke_generic Visit Class.Expr (OptOutDispatch_handle_Expr T) (ptr prm) p) w
  = Expr_dispatch T a p (logged (mkCall Visit Class.Expr p) w).
Proof. destruct a; reflexivity. Qed.

Lemma via_OptInConstDispatch_handle_Val (T : ConstOverloads HS) a p w :
  with_parameter a (fun prm =>
    invoke_generic ConstVisit Class.Val (OptInConstDispatch_handle_Val T)
      (ptr prm) p) w
  = Val_const_dispatch T a p (logged (mkCall ConstVisit Class.Val p) w).
Proof. destruct a; reflexivity. Qed.

Lemma via_OptInConstDispatch_handle_Expr (T : ConstOverloads HS) a p w :
  with_parameter a (fun prm =>
    invoke_generic ConstVisit Class.Expr (OptInConstDispatch_handle_Expr T)
      (ptr prm) p) w
  = Expr_const_dispatch T a p (logged (mkCall ConstVisit Class.Expr p) w).
Proof. destruct a; reflexivity. Qed.

Lemma via_OptOutMutator_mutate_Val (T : Overloads HS N) a p w :
  with_parameter a (fun prm =>
    invoke_generic Mutate Class.Val (OptOutMutator_mutate_Val T) (ptr prm) p) w
  = Val_mutator_dispatch T a p (logged (mkCall Mutate Class.Val p) w).
Proof. destruct a; reflexivity. Qed.

Lemma via_OptOutMutator_mutate_Expr (T : Overloads HS N) a p w :
  with_parameter a (fun prm =>
    invoke_generic Mutate Class.Expr (OptOutMutator_mutate_Expr T) (ptr prm) p) w
  = Expr_mutator_dispatch T a p (logged (mkCall Mutate Class.Expr p) w).
Proof. destruct a; reflexivity. Qed.

(** The Statement-level templates at the base classes. *)
Lemma Statement_dispatch_OptOutDispatch (T : Overloads HS unit) a p w s :
  heap w !! p = Some s ->
  Statement_dispatch (OptOutDispatch T) a p w
  = if isVal s then Val_dispatch T a p (logged (mkCall Visit Class.Val p) w)
    else if isExpr s then
      Expr_dispatch T a p (logged (mkCall Visit Class.Expr p) w)
    else (InternalAssert "Unknown stmttype in dispatch!", w).
Proof.
  intros Hp. rewrite (Statement_dispatch_unfold _ _ _ _ s Hp).
  cbn [OptOutDispatch generic_Val generic_Expr].
  rewrite via_OptOutDispatch_handle_Val, via_OptOutDispatch_handle_Expr.
  reflexivity.
Qed.

Lemma Statement_dispatch_OptInDispatch (T : Overloads HS unit) a p w :
  Statement_dispatch (OptInDispatch T) a p w
  = Statement_dispatch (OptOutDispatch T) a p w.
Proof. reflexivity. Qed.

Lemma Statement_const_dispatch_OptInConstDispatch (T : ConstOverloads HS)
    a p w s :
  heap w !! p = Some s ->
  Statement_const_dispatch (OptInConstDispatch T) a p w
  = if isVal s then
      Val_const_dispatch T a p (logged (mkCall ConstVisit Class.Val p) w)
    else if isExpr s then
      Expr_const_dispatch T a p (logged (mkCall ConstVisit Class.Expr p) w)
    else (InternalAssert "Unknown stmttype in dispatch!", w).
Proof.
  intros Hp. rewrite (Statement_const_dispatch_unfold _ _ _ _ s Hp).
  cbn [OptInConstDispatch generic_Val generic_Expr].
  rewrite via_OptInConstDispatch_handle_Val,
    via_OptInConstDispatch_handle_Expr.
  reflexivity.
Qed.

Lemma Statement_mutator_dispatch_OptOutMutator (T : Overloads HS N) a p w s :
  heap w !! p = Some s ->
  Statement_mutator_dispatch (OptOutMutator T) a p w
  = if isVal s then
      Val_mutator_dispatch T a p (logged (mkCall Mutate Class.Val p) w)
    else if isExpr s then
      Expr_mutator_dispatch T a p (logged (mkCall Mutate Class.Expr p) w)
    else (InternalAssert "Unknown stmttype in dispatch!", w).
Proof.
  intros Hp. rewrite (Statement_mutator_dispatch_unfold _ _ _ _ s Hp).
  cbn [OptOutMutator generic_Val generic_Expr].
  rewrite via_OptOutMutator_mutate_Val, via_OptOutMutator_mutate_Expr.
  reflexivity.
Qed.

(** A Statement-level template at an address that holds no node. *)
Lemma Statement_dispatch_fault (T : Generic HS unit) a p w :
  heap w !! p = None -> Statement_dispatch T a p w = (Fault, w).
Proof. intros Hp. apply with_parameter_fault. exact Hp. Qed.

Lemma Statement_const_dispatch_fault (T : Generic HS unit) a p w :
  heap w !! p = None -> Statement_const_dispatch T a p w = (Fault, w).
Proof. intros Hp. apply with_parameter_fault. exact Hp. Qed.

Lemma Statement_mutator_dispatch_fault (T : Generic HS N) a p w :
  heap w !! p = None -> Statement_mutator_dispatch T a p w = (Fault, w).
Proof. intros Hp. apply with_parameter_fault. exact Hp. Qed.

(** ** Consequences of the case analysis *)

Lemma route_selected {A} f (T : Overloads HS A) sel msg a p w v c obj :
  heap w !! p = Some v -> sel v = Some c ->
  arg_object (objs w) a = Some obj ->
  commit w (route f T sel msg a p (heap w) (objs w))
  = one_call f c (T c) a obj p w.
Proof.
  intros Hp Hsel Hobj. unfold route. rewrite Hp, Hsel, Hobj.
  symmetry. apply one_call_commit.
Qed.

Lemma route_unselected {A} f (T : Overloads HS A) sel msg a p w v :
  heap w !! p = Some v -> sel v = None ->
  commit w (route f T sel msg a p (heap w) (objs w)) = (InternalAssert msg, w).
Proof.
  intros Hp Hsel. unfold route. rewrite Hp, Hsel. apply commit_nothing.
Qed.

Lemma one_call_not_assert {A} f c (body : overload HS A) a obj p w :
  is_assert (fst (one_call f c body a obj p w)) = false.
Proof.
  unfold one_call. destruct (body obj (heap w) p) as [[[x|e] obj'] h'];
    reflexivity.
Qed.

(** The tags for which the reference kind is undefined are the unlisted
    ones. *)
Lemma Val_kind_None v :
  Val_kind v = None <->
  (exists raw, getValType v = ValType.unlisted raw) \/
  (getValType v = ValType.Scalar /\
   exists raw, getDataType v = DataType.unlisted raw).
Proof.
  unfold Val_kind. split.
  - destruct (getValType v); try discriminate; eauto.
    destruct (getDataType v); try discriminate; eauto.
  - intros [[raw ->]|[-> [raw ->]]]; reflexivity.
Qed.

Lemma Expr_kind_None e :
  Expr_kind e = None <-> exists raw, getExprType e = ExprType.unlisted raw.
Proof.
  unfold Expr_kind. split.
  - destruct (getExprType e); try discriminate; eauto.
  - intros [raw ->]; reflexivity.
Qed.

(** C2.  Visit is exhaustive: for a node of any of the six concrete Val
    kinds (Float and Int under Scalar included) dispatched through
    [Val::dispatch], and for a node of any of the seven concrete Expr kinds
    dispatched through [Expr::dispatch], the run is exactly one call of the
    [handle] overload for that kind, with the address of that node, and it
    does not end in the assertion. *)
Theorem Visit_calls_the_matching_overload (T : Overloads HS unit) a p w n obj :
  heap w !! p = Some n ->
  arg_object (objs w) a = Some obj ->
  (forall c, Val_kind n = Some c ->
     Val_dispatch T a p w = one_call Visit c (T c) a obj p w /\
     is_assert (fst (Val_dispatch T a p w)) = false) /\
  (forall c, Expr_kind n = Some c ->
     Expr_dispatch T a p w = one_call Visit c (T c) a obj p w /\
     is_assert (fst (Expr_dispatch T a p w)) = false).
Proof.
  intros Hp Hobj. split; intros c Hk.
  - rewrite Val_dispatch_route.
    rewrite (route_selected _ _ _ _ _ _ _ n c obj Hp Hk Hobj).
    split; [reflexivity | apply one_call_not_assert].
  - rewrite Expr_dispatch_route.
    rewrite (route_selected _ _ _ _ _ _ _ n c obj Hp Hk Hobj).
    split; [reflexivity | apply one_call_not_assert].
Qed.

(** X1.  Const-Visit is exhaustive: for a node of any of the six concrete
    Val kinds dispatched through [Val::const_dispatch], and of any of the
    seven concrete Expr kinds dispatched through [Expr::const_dispatch],
    the run is exactly one call of the [handle(const X* const x)] overload
    for that kind, with the address of that node. *)
Lemma Const_overload_matches_kind (T : ConstOverloads HS)
    a p w n obj :
  heap w !! p = Some n ->
  arg_object (objs w) a = Some obj ->
  (forall c, Val_kind n = Some c ->
     Val_const_dispatch T a p w
     = one_call ConstVisit c (read_only (T c)) a obj p w) /\
  (forall c, Expr_kind n = Some c ->
     Expr_const_dispatch T a p w
     = one_call ConstVisit c (read_only (T c)) a obj p w).
Proof.
  intros Hp Hobj. split; intros c Hk.
  - rewrite Val_const_dispatch_route.
    apply (route_selected _ (fun c => read_only (T c)) _ _ _ _ _ n c obj Hp Hk Hobj).
  - rewrite Expr_const_dispatch_route.
    apply (route_selected _ (fun c => read_only (T c)) _ _ _ _ _ n c obj Hp Hk Hobj).
Qed.

(** X2.  Mutate calls the matching overload for every Val kind, and for
    every Expr kind but IfThenElse: the run of [Val::mutator_dispatch], or
    of [Expr::mutator_dispatch], is exactly one call of the [mutate]
    overload for the kind of the node, with the address of that node. *)
Lemma Mutate_overload_matches_kind (T : Overloads HS N) a p w n obj :
  heap w !! p = Some n ->
  arg_object (objs w) a = Some obj ->
  (forall c, Val_kind n = Some c ->
     Val_mutator_dispatch T a p w = one_call Mutate c (T c) a obj p w) /\
  (forall c, Expr_kind n = Some c -> c <> Class.IfThenElse ->
     Expr_mutator_dispatch T a p w = one_call Mutate c (T c) a obj p w).
Proof.
  intros Hp Hobj. split.
  - intros c Hk. rewrite Val_mutator_dispatch_route.
    apply (route_selected _ _ _ _ _ _ _ n c obj Hp Hk Hobj).
  - intros c Hk Hc. rewrite Expr_mutator_dispatch_route.
    rewrite (route_selected _ _ _ _ _ _ _ n (mutate_overload_called c) obj Hp);
      [| rewrite Hk; reflexivity | exact Hobj].
    destruct c; try reflexivity. congruence.
Qed.

(** C1.  At a node tagged IfThenElse, [Expr::mutator_dispatch] calls the
    [mutate] overload for ForLoop, once, with the address of that node: its
    IfThenElse case casts to [ForLoop*].  The overload for IfThenElse is not
    called. *)
Theorem Expr_mutator_dispatch_IfThenElse_calls_ForLoop (T : Overloads HS N)
    a p w e obj :
  heap w !! p = Some e ->
  arg_object (objs w) a = Some obj ->
  getExprType e = ExprType.IfThenElse ->
  Expr_mutator_dispatch T a p w
  = one_call Mutate Class.ForLoop (T Class.ForLoop) a obj p w.
Proof.
  intros Hp Hobj Htag. rewrite Expr_mutator_dispatch_route.
  apply (route_selected _ _ _ _ _ _ _ e Class.ForLoop obj Hp); [|exact Hobj].
  unfold Expr_kind. rewrite Htag. reflexivity.
Qed.

(** C3.  A node whose tag matches no case of the switch it is dispatched
    through makes that dispatch fail with the internal assertion, in each of
    the three families: a Val whose kind tag is unlisted, or is Scalar with
    an unlisted secondary tag, at the Val-level templates; an Expr whose
    kind tag is unlisted at the Expr-level templates; a Statement that is
    neither Val nor Expr at the Statement-level templates.  The world is
    the one before the call: no overload was called, nothing was changed,
    and the outcome is not a return. *)
Theorem unmatched_tag_fails_the_assertion
    (Tv : Overloads HS unit) (Tc : ConstOverloads HS) (Tm : Overloads HS N)
    (Gv Gc : Generic HS unit) (Gm : Generic HS N) a p w n :
  heap w !! p = Some n ->
  (Val_kind n = None ->
     Val_dispatch Tv a p w
       = (InternalAssert "Unknown valtype in dispatch!", w) /\
     Val_const_dispatch Tc a p w
       = (InternalAssert "Unknown valtype in dispatch!", w) /\
     Val_mutator_dispatch Tm a p w
       = (InternalAssert "Unknown valtype in dispatch!", w)) /\
  (Expr_kind n = None ->
     Expr_dispatch Tv a p w
       = (InternalAssert "Unknown exprtype in dispatch!", w) /\
     Expr_const_dispatch Tc a p w
       = (InternalAssert "Unknown exprtype in dispatch!", w) /\
     Expr_mutator_dispatch Tm a p w
       = (InternalAssert "Unknown exprtype in dispatch!", w)) /\
  (isVal n = false -> isExpr n = false ->
     Statement_dispatch Gv a p w
       = (InternalAssert "Unknown stmttype in dispatch!", w) /\
     Statement_const_dispatch Gc a p w
       = (InternalAssert "Unknown stmttype in dispatch!", w) /\
     Statement_mutator_dispatch Gm a p w
       = (InternalAssert "Unknown stmttype in dispatch!", w)).
Proof.
  intros Hp. repeat split.
  - rewrite Val_dispatch_route. eapply route_unselected; eassumption.
  - rewrite Val_const_dispatch_route. eapply route_unselected; eassumption.
  - rewrite Val_mutator_dispatch_route. eapply route_unselected; eassumption.
  - rewrite Expr_dispatch_route. eapply route_unselected; eassumption.
  - rewrite Expr_const_dispatch_route. eapply route_unselected; eassumption.
  - rewrite Expr_mutator_dispatch_route.
    eapply route_unselected; [eassumption|]. cbv beta.
    match goal with H : Expr_kind n = None |- _ => rewrite H end. reflexivity.
  - rewrite (Statement_dispatch_unfold _ _ _ _ n Hp).
    match goal with H : isVal n = false |- _ => rewrite H end.
    match goal with H : isExpr n = false |- _ => rewrite H end. reflexivity.
  - rewrite (Statement_const_dispatch_unfold _ _ _ _ n Hp).
    match goal with H : isVal n = false |- _ => rewrite H end.
    match goal with H : isExpr n = false |- _ => rewrite H end. reflexivity.
  - rewrite (Statement_mutator_dispatch_unfold _ _ _ _ n Hp).
    match goal with H : isVal n = false |- _ => rewrite H end.
    match goal with H : isExpr n = false |- _ => rewrite H end. reflexivity.
Qed.

(** A Val with an unmatched tag that enters through the Statement-level
    template of a base class reaches the assertion of the Val-level
    template after the generic overload has been called. *)
Lemma stray_Val_through_Statement_dispatch (T : Overloads HS unit) a p w n :
  heap w !! p = Some n -> isVal n = true -> Val_kind n = None ->
  Statement_dispatch (OptOutDispatch T) a p w
  = (InternalAssert "Unknown valtype in dispatch!",
     logged (mkCall Visit Class.Val p) w).
Proof.
  intros Hp HV Hk. rewrite (Statement_dispatch_OptOutDispatch _ _ _ _ n Hp).
  rewrite HV, Val_dispatch_route. eapply route_unselected; eassumption.
Qed.

(** ** The effect of a dispatch does not depend on the log *)

Lemma commit_fst {A} w (e : outcome A * gmap N Node * list HS * list Call) :
  (commit w e).1 = e.1.1.1.
Proof. destruct e as [[[o h] l] new]. reflexivity. Qed.

Lemma commit_heap {A} w (e : outcome A * gmap N Node * list HS * list Call) :
  heap (commit w e).2 = e.1.1.2.
Proof. destruct e as [[[o h] l] new]. reflexivity. Qed.

Lemma commit_objs {A} w (e : outcome A * gmap N Node * list HS * list Call) :
  objs (commit w e).2 = e.1.2.
Proof. destruct e as [[[o h] l] new]. reflexivity. Qed.

Lemma commit_calls {A} w (e : outcome A * gmap N Node * list HS * list Call) :
  calls (commit w e).2 = calls w ++ e.2.
Proof. destruct e as [[[o h] l] new]. reflexivity. Qed.

Lemma concrete_calls_app l1 l2 :
  concrete_calls (l1 ++ l2) = concrete_calls l1 ++ concrete_calls l2.
Proof. apply filter_app. Qed.

Lemma same_effect_logged {A} g w
    (e : outcome A * gmap N Node * list HS * list Call) :
  Class.is_concrete (target g) = false ->
  same_effect (commit (logged g w) e) (commit w e).
Proof.
  intros Hg. unfold same_effect.
  rewrite !commit_fst, !commit_heap, !commit_objs, !commit_calls.
  repeat split. cbn [logged calls].
  rewrite !concrete_calls_app. f_equal.
  assert (Hnil : concrete_calls [g] = []).
  { unfold concrete_calls. cbn. rewrite Hg.
    destruct (decide (false = true)); [discriminate | reflexivity]. }
  rewrite Hnil. apply app_nil_r.
Qed.

(** C4.  Category commutation: for the base handler classes, whose generic
    overloads are those of this file, dispatching a node through the
    Statement-level template has the same observable effect as dispatching
    it through the Val-level template when the node is a Val, and through
    the Expr-level template when it is an Expr and not a Val: the same
    concrete-kind overload is called with the same node, the heap and the
    handler object are left the same, and the outcome, which for Mutate
    carries the Statement returned, is the same. *)
Theorem Statement_level_commutes_with_category
    (Tv : Overloads HS unit) (Tc : ConstOverloads HS) (Tm : Overloads HS N)
    a p w n :
  heap w !! p = Some n ->
  (isVal n = true ->
     same_effect (Statement_dispatch (OptOutDispatch Tv) a p w)
       (Val_dispatch Tv a p w) /\
     same_effect (Statement_dispatch (OptInDispatch Tv) a p w)
       (Val_dispatch Tv a p w) /\
     same_effect (Statement_const_dispatch (OptInConstDispatch Tc) a p w)
       (Val_const_dispatch Tc a p w) /\
     same_effect (Statement_mutator_dispatch (OptOutMutator Tm) a p w)
       (Val_mutator_dispatch Tm a p w)) /\
  (isVal n = false -> isExpr n = true ->
     same_effect (Statement_dispatch (OptOutDispatch Tv) a p w)
       (Expr_dispatch Tv a p w) /\
     same_effect (Statement_dispatch (OptInDispatch Tv) a p w)
       (Expr_dispatch Tv a p w) /\
     same_effect (Statement_const_dispatch (OptInConstDispatch Tc) a p w)
       (Expr_const_dispatch Tc a p w) /\
     same_effect (Statement_mutator_dispatch (OptOutMutator Tm) a p w)
       (Expr_mutator_dispatch Tm a p w)).
Proof.
  intros Hp. split.
  - intros HV.
    change (OptInDispatch Tv) with (OptOutDispatch Tv).
    rewrite (Statement_dispatch_OptOutDispatch _ _ _ _ n Hp),
      (Statement_const_dispatch_OptInConstDispatch _ _ _ _ n Hp),
      (Statement_mutator_dispatch_OptOutMutator _ _ _ _ n Hp), HV.
    rewrite !Val_dispatch_route, !Val_const_dispatch_route,
      !Val_mutator_dispatch_route.
    split; [|split; [|split]]; apply same_effect_logged; reflexivity.
  - intros HV HE.
    change (OptInDispatch Tv) with (OptOutDispatch Tv).
    rewrite (Statement_dispatch_OptOutDispatch _ _ _ _ n Hp),
      (Statement_const_dispatch_OptInConstDispatch _ _ _ _ n Hp),
      (Statement_mutator_dispatch_OptOutMutator _ _ _ _ n Hp), HV, HE.
    rewrite !Expr_dispatch_route, !Expr_const_dispatch_route,
      !Expr_mutator_dispatch_route.
    split; [|split; [|split]]; apply same_effect_logged; reflexivity.
Qed.

(** ** What Mutate returns *)

Lemma one_call_returns {A} f c (body : overload HS A) a obj p w r obj' h' :
  body obj (heap w) p = (Normal r, obj', h') ->
  (one_call f c body a obj p w).1 = Returned r.
Proof. intros Hb. unfold one_call. rewrite Hb. reflexivity. Qed.

(** X3.  Each case of the Mutate switches returns what the overload it
    calls returns.  For every Val kind, and for every Expr kind but
    IfThenElse,
    that is the overload for the kind of the node, at the Expr-level (or
    Val-level) template and at the Statement-level template alike. *)
Lemma Mutate_returns_the_overload_result (T : Overloads HS N) a p w n obj c
    r obj' h' :
  heap w !! p = Some n ->
  arg_object (objs w) a = Some obj ->
  T c obj (heap w) p = (Normal r, obj', h') ->
  (Val_kind n = Some c ->
     (Val_mutator_dispatch T a p w).1 = Returned r /\
     (isVal n = true ->
      (Statement_mutator_dispatch (OptOutMutator T) a p w).1 = Returned r)) /\
  (Expr_kind n = Some c -> c <> Class.IfThenElse ->
     (Expr_mutator_dispatch T a p w).1 = Returned r /\
     (isVal n = false -> isExpr n = true ->
      (Statement_mutator_dispatch (OptOutMutator T) a p w).1 = Returned r)).
Proof.
  intros Hp Hobj Hb. split.
  - intros Hk. split.
    + rewrite Val_mutator_dispatch_route,
        (route_selected _ _ _ _ _ _ _ n c obj Hp Hk Hobj).
      eapply one_call_returns; exact Hb.
    + intros HV.
      rewrite (Statement_mutator_dispatch_OptOutMutator _ _ _ _ n Hp), HV.
      rewrite Val_mutator_dispatch_route,
        (route_selected _ _ _ _ _ _ (logged _ w) n c obj Hp Hk Hobj).
      eapply one_call_returns; exact Hb.
  - intros Hk Hc.
    assert (Hsel : mutate_overload_called <$> Expr_kind n = Some c).
    { rewrite Hk. destruct c; try reflexivity. congruence. }
    split.
    + rewrite Expr_mutator_dispatch_route,
        (route_selected _ _ _ _ _ _ _ n c obj Hp Hsel Hobj).
      eapply one_call_returns; exact Hb.
    + intros HV HE.
      rewrite (Statement_mutator_dispatch_OptOutMutator _ _ _ _ n Hp), HV, HE.
      rewrite Expr_mutator_dispatch_route,
        (route_selected _ _ _ _ _ _ (logged _ w) n c obj Hp Hsel Hobj).
      eapply one_call_returns; exact Hb.
Qed.

(** C5.  At a node tagged IfThenElse the Mutate dispatch returns the
    Statement the [mutate] overload for ForLoop produces there, from the
    Expr-level template and from the Statement-level template of the base
    mutator alike; what the overload for IfThenElse would produce plays no
    part. *)
Theorem Mutate_of_IfThenElse_returns_the_ForLoop_result (T : Overloads HS N)
    a p w e obj r obj' h' :
  heap w !! p = Some e ->
  arg_object (objs w) a = Some obj ->
  isVal e = false -> isExpr e = true ->
  getExprType e = ExprType.IfThenElse ->
  T Class.ForLoop obj (heap w) p = (Normal r, obj', h') ->
  (Expr_mutator_dispatch T a p w).1 = Returned r /\
  (Statement_mutator_dispatch (OptOutMutator T) a p w).1 = Returned r.
Proof.
  intros Hp Hobj HV HE Htag Hb.
  assert (Hsel : mutate_overload_called <$> Expr_kind e = Some Class.ForLoop).
  { unfold Expr_kind. rewrite Htag. reflexivity. }
  split.
  - rewrite Expr_mutator_dispatch_route,
      (route_selected _ _ _ _ _ _ _ e _ obj Hp Hsel Hobj).
    eapply one_call_returns; exact Hb.
  - rewrite (Statement_mutator_dispatch_OptOutMutator _ _ _ _ e Hp), HV, HE.
    rewrite Expr_mutator_dispatch_route,
      (route_selected _ _ _ _ _ _ (logged _ w) e _ obj Hp Hsel Hobj).
    eapply one_call_returns; exact Hb.
Qed.

(** ** The two ways of passing the handler *)

Lemma route_either_way {A} f (T : Overloads HS A) sel msg q obj p h l :
  l !! q = Some obj ->
  (route f T sel msg (Direct obj) p h l).1.1.1
    = (route f T sel msg (Indirect q) p h l).1.1.1 /\
  (route f T sel msg (Direct obj) p h l).1.1.2
    = (route f T sel msg (Indirect q) p h l).1.1.2 /\
  (route f T sel msg (Direct obj) p h l).2
    = (route f T sel msg (Indirect q) p h l).2.
Proof.
  intros Hq. unfold route. destruct (h !! p) as [v|]; [|auto].
  destruct (sel v) as [c|]; [|auto]. cbn [arg_object]. rewrite Hq.
  destruct (T c obj h p) as [[r obj'] h']. auto.
Qed.

Lemma commit_either_way {A} f (T : Overloads HS A) sel msg q obj p w :
  objs w !! q = Some obj ->
  same_calls_and_result
    (commit w (route f T sel msg (Direct obj) p (heap w) (objs w)))
    (commit w (route f T sel msg (Indirect q) p (heap w) (objs w))).
Proof.
  intros Hq. unfold same_calls_and_result.
  rewrite !commit_fst, !commit_heap, !commit_calls.
  destruct (route_either_way f T sel msg q obj p (heap w) (objs w) Hq)
    as (-> & -> & ->).
  auto.
Qed.

Lemma same_calls_and_result_refl {A} (r : outcome A * World HS) :
  same_calls_and_result r r.
Proof. unfold same_calls_and_result. auto. Qed.

Lemma route_by_value_keeps_objects {A} f (T : Overloads HS A) sel msg obj
    p h l :
  (route f T sel msg (Direct obj) p h l).1.2 = l.
Proof.
  unfold route. destruct (h !! p) as [v|]; [|reflexivity].
  destruct (sel v) as [c|]; [|reflexivity]. cbn [arg_object].
  destruct (T c obj h p) as [[r obj'] h']. reflexivity.
Qed.

Lemma Statement_dispatch_either_way (T : Overloads HS unit) q obj p w :
  objs w !! q = Some obj ->
  same_calls_and_result
    (Statement_dispatch (OptOutDispatch T) (Direct obj) p w)
    (Statement_dispatch (OptOutDispatch T) (Indirect q) p w).
Proof.
  intros Hq. destruct (heap w !! p) as [n|] eqn:Hp.
  - rewrite !(Statement_dispatch_OptOutDispatch _ _ _ _ n Hp).
    destruct (isVal n); [|destruct (isExpr n)].
    + rewrite !Val_dispatch_route.
      apply (commit_either_way _ _ _ _ _ _ _ (logged _ w)). exact Hq.
    + rewrite !Expr_dispatch_route.
      apply (commit_either_way _ _ _ _ _ _ _ (logged _ w)). exact Hq.
    + apply same_calls_and_result_refl.
  - rewrite !Statement_dispatch_fault by exact Hp.
    apply same_calls_and_result_refl.
Qed.

Lemma Statement_const_dispatch_either_way (T : ConstOverloads HS) q obj p w :
  objs w !! q = Some obj ->
  same_calls_and_result
    (Statement_const_dispatch (OptInConstDispatch T) (Direct obj) p w)
    (Statement_const_dispatch (OptInConstDispatch T) (Indirect q) p w).
Proof.
  intros Hq. destruct (heap w !! p) as [n|] eqn:Hp.
  - rewrite !(Statement_const_dispatch_OptInConstDispatch _ _ _ _ n Hp).
    destruct (isVal n); [|destruct (isExpr n)].
    + rewrite !Val_const_dispatch_route.
      apply (commit_either_way _ _ _ _ _ _ _ (logged _ w)). exact Hq.
    + rewrite !Expr_const_dispatch_route.
      apply (commit_either_way _ _ _ _ _ _ _ (logged _ w)). exact Hq.
    + apply same_calls_and_result_refl.
  - rewrite !Statement_const_dispatch_fault by exact Hp.
    apply same_calls_and_result_refl.
Qed.

Lemma Statement_mutator_dispatch_either_way (T : Overloads HS N) q obj p w :
  objs w !! q = Some obj ->
  same_calls_and_result
    (Statement_mutator_dispatch (OptOutMutator T) (Direct obj) p w)
    (Statement_mutator_dispatch (OptOutMutator T) (Indirect q) p w).
Proof.
  intros Hq. destruct (heap w !! p) as [n|] eqn:Hp.
  - rewrite !(Statement_mutator_dispatch_OptOutMutator _ _ _ _ n Hp).
    destruct (isVal n); [|destruct (isExpr n)].
    + rewrite !Val_mutator_dispatch_route.
      apply (commit_either_way _ _ _ _ _ _ _ (logged _ w)). exact Hq.
    + rewrite !Expr_mutator_dispatch_route.
      apply (commit_either_way _ _ _ _ _ _ _ (logged _ w)). exact Hq.
    + apply same_calls_and_result_refl.
  - rewrite !Statement_mutator_dispatch_fault by exact Hp.
    apply same_calls_and_result_refl.
Qed.

(** With one table of overloads on both sides, passing the handler as an
    object and passing the address of that object give, in all nine
    templates (at the base classes for the Statement-level ones), runs
    that call the same overloads with the same nodes, end with the same
    outcome and leave the same heap. *)
Lemma same_calls_and_result_either_way
    (Tv : Overloads HS unit) (Tc : ConstOverloads HS) (Tm : Overloads HS N)
    q obj p w :
  objs w !! q = Some obj ->
  (same_calls_and_result
     (Val_dispatch Tv (Direct obj) p w) (Val_dispatch Tv (Indirect q) p w) /\
   same_calls_and_result
     (Expr_dispatch Tv (Direct obj) p w) (Expr_dispatch Tv (Indirect q) p w) /\
   same_calls_and_result
     (Statement_dispatch (OptOutDispatch Tv) (Direct obj) p w)
     (Statement_dispatch (OptOutDispatch Tv) (Indirect q) p w) /\
   same_calls_and_result
     (Statement_dispatch (OptInDispatch Tv) (Direct obj) p w)
     (Statement_dispatch (OptInDispatch Tv) (Indirect q) p w)) /\
  (same_calls_and_result
     (Val_const_dispatch Tc (Direct obj) p w)
     (Val_const_dispatch Tc (Indirect q) p w) /\
   same_calls_and_result
     (Expr_const_dispatch Tc (Direct obj) p w)
     (Expr_const_dispatch Tc (Indirect q) p w) /\
   same_calls_and_result
     (Statement_const_dispatch (OptInConstDispatch Tc) (Direct obj) p w)
     (Statement_const_dispatch (OptInConstDispatch Tc) (Indirect q) p w)) /\
  (same_calls_and_result
     (Val_mutator_dispatch Tm (Direct obj) p w)
     (Val_mutator_dispatch Tm (Indirect q) p w) /\
   same_calls_and_result
     (Expr_mutator_dispatch Tm (Direct obj) p w)
     (Expr_mutator_dispatch Tm (Indirect q) p w) /\
   same_calls_and_result
     (Statement_mutator_dispatch (OptOutMutator Tm) (Direct obj) p w)
     (Statement_mutator_dispatch (OptOutMutator Tm) (Indirect q) p w)).
Proof.
  intros Hq. split; [|split].
  - split; [|split; [|split]].
    + rewrite !Val_dispatch_route. apply commit_either_way, Hq.
    + rewrite !Expr_dispatch_route. apply commit_either_way, Hq.
    + apply Statement_dispatch_either_way, Hq.
    + apply Statement_dispatch_either_way, Hq.
  - split; [|split].
    + rewrite !Val_const_dispatch_route. apply commit_either_way, Hq.
    + rewrite !Expr_const_dispatch_route. apply commit_either_way, Hq.
    + apply Statement_const_dispatch_either_way, Hq.
  - split; [|split].
    + rewrite !Val_mutator_dispatch_route. apply commit_either_way, Hq.
    + rewrite !Expr_mutator_dispatch_route. apply commit_either_way, Hq.
    + apply Statement_mutator_dispatch_either_way, Hq.
Qed.

(** The two ways differ in where the handler's own changes land: passed by
    value, the handler works on a copy, and the object store of the caller
    is left as it was. *)
Lemma by_value_keeps_the_object_store
    (Tv : Overloads HS unit) (Tc : ConstOverloads HS) (Tm : Overloads HS N)
    obj p w :
  objs (Val_dispatch Tv (Direct obj) p w).2 = objs w /\
  objs (Expr_dispatch Tv (Direct obj) p w).2 = objs w /\
  objs (Val_const_dispatch Tc (Direct obj) p w).2 = objs w /\
  objs (Expr_const_dispatch Tc (Direct obj) p w).2 = objs w /\
  objs (Val_mutator_dispatch Tm (Direct obj) p w).2 = objs w /\
  objs (Expr_mutator_dispatch Tm (Direct obj) p w).2 = objs w.
Proof.
  rewrite Val_dispatch_route, Expr_dispatch_route, Val_const_dispatch_route,
    Expr_const_dispatch_route, Val_mutator_dispatch_route,
    Expr_mutator_dispatch_route.
  rewrite !commit_objs.
  repeat split; apply route_by_value_keeps_objects.
Qed.

(** ** Const-Visit *)

Lemma route_read_only f (T : ConstOverloads HS) sel msg a p h l :
  (route f (fun c => read_only (T c)) sel msg a p h l).1.1.2 = h /\
  Forall (fun c => family c = f)
    (route f (fun c => read_only (T c)) sel msg a p h l).2.
Proof.
  unfold route. destruct (h !! p) as [v|]; [|split; [reflexivity|constructor]].
  destruct (sel v) as [c|]; [|split; [reflexivity|constructor]].
  destruct (arg_object l a) as [obj|]; [|split; [reflexivity|constructor]].
  unfold read_only. destruct (T c obj h p) as [r obj']. cbn.
  split; [reflexivity|]. constructor; [reflexivity | constructor].
Qed.

Lemma read_only_run_commit (T : ConstOverloads HS) sel msg a p w :
  read_only_run w
    (commit w (route ConstVisit (fun c => read_only (T c)) sel msg a p
                 (heap w) (objs w))).
Proof.
  destruct (route_read_only ConstVisit T sel msg a p (heap w) (objs w))
    as [Hh Hc].
  unfold read_only_run. rewrite commit_heap, commit_calls.
  split; [exact Hh|]. eexists. split; [reflexivity | exact Hc].
Qed.

Lemma read_only_run_commit_logged (T : ConstOverloads HS) sel msg a p w g w' :
  heap w' = heap w -> calls w' = calls w ++ [g] ->
  family g = ConstVisit ->
  read_only_run w
    (commit w'
       (route ConstVisit (fun c => read_only (T c)) sel msg a p
          (heap w') (objs w'))).
Proof.
  intros Hh Hc Hg.
  destruct (route_read_only ConstVisit T sel msg a p (heap w') (objs w'))
    as [Hh' Hc'].
  unfold read_only_run. rewrite commit_heap, commit_calls, Hh', Hc.
  split; [exact Hh|]. rewrite <- app_assoc.
  eexists. split; [reflexivity|]. constructor; [exact Hg | exact Hc'].
Qed.

Lemma read_only_run_nothing {A} (o : outcome A) w : read_only_run w (o, w).
Proof.
  split; [reflexivity|]. exists []. split; [|constructor].
  cbn. rewrite app_nil_r. reflexivity.
Qed.

(** C7.  Const non-mutation: a dispatch through the Const-Visit templates,
    at the Val level, the Expr level and, for the base class of this file,
    the Statement level, calls overloads of the [handle(const X* const x)]
    family only, and leaves the heap, hence the node dispatched, as it
    was. *)
Theorem Const_Visit_is_read_only (T : ConstOverloads HS) a p w :
  read_only_run w (Val_const_dispatch T a p w) /\
  read_only_run w (Expr_const_dispatch T a p w) /\
  read_only_run w (Statement_const_dispatch (OptInConstDispatch T) a p w).
Proof.
  split; [|split].
  - rewrite Val_const_dispatch_route. apply read_only_run_commit.
  - rewrite Expr_const_dispatch_route. apply read_only_run_commit.
  - destruct (heap w !! p) as [n|] eqn:Hp.
    + rewrite (Statement_const_dispatch_OptInConstDispatch _ _ _ _ n Hp).
      destruct (isVal n); [|destruct (isExpr n)].
      * rewrite Val_const_dispatch_route.
        eapply (read_only_run_commit_logged T); reflexivity.
      * rewrite Expr_const_dispatch_route.
        eapply (read_only_run_commit_logged T); reflexivity.
      * apply read_only_run_nothing.
    + rewrite Statement_const_dispatch_fault by exact Hp.
      apply read_only_run_nothing.
Qed.

(** ** The depth of a dispatch *)

Lemma route_chain {A} f (T : Overloads HS A) sel msg a p h l v obj :
  h !! p = Some v -> arg_object l a = Some obj ->
  (completed (route f T sel msg a p h l).1.1.1 = true /\
   exists c, (route f T sel msg a p h l).2 = [mkCall f (Class.Concrete c) p]) \/
  (is_assert (route f T sel msg a p h l).1.1.1 = true /\
   (route f T sel msg a p h l).2 = []).
Proof.
  intros Hp Hobj. unfold route. rewrite Hp.
  destruct (sel v) as [c|]; [|right; split; reflexivity].
  rewrite Hobj. destruct (T c obj h p) as [[[x|e] obj'] h'];
    left; (split; [reflexivity | exists c; reflexivity]).
Qed.

Lemma bounded_chain_commit {A} f (T : Overloads HS A) sel msg a p w v obj
    (generic : list Call) w' :
  heap w !! p = Some v -> arg_object (objs w) a = Some obj ->
  heap w' = heap w -> objs w' = objs w -> calls w' = calls w ++ generic ->
  length generic <= 1 ->
  Forall (fun c => target c = Class.Val \/ target c = Class.Expr) generic ->
  bounded_chain w (commit w' (route f T sel msg a p (heap w') (objs w'))).
Proof.
  intros Hp Hobj Hh Hl Hc Hlen Hgen. unfold bounded_chain.
  rewrite commit_fst, commit_calls, Hh, Hl, Hc.
  assert (Hns : Forall (fun c => target c <> Class.Statement) generic).
  { eapply Forall_impl; [exact Hgen|]. intros c [-> | ->]; discriminate. }
  destruct (route_chain f T sel msg a p (heap w) (objs w) v obj Hp Hobj)
    as [[Hdone [c Hnew]] | [Hfail Hnew]]; rewrite Hnew.
  - exists generic, [mkCall f (Class.Concrete c) p].
    split; [symmetry; apply app_assoc|].
    split; [exact Hlen|]. split; [exact Hgen|].
    split; [constructor; [reflexivity | constructor]|].
    split; [|left; split; [exact Hdone | reflexivity]].
    apply Forall_app. split; [exact Hns|].
    constructor; [discriminate | constructor].
  - exists generic, [].
    split; [symmetry; apply app_assoc|].
    split; [exact Hlen|]. split; [exact Hgen|]. split; [constructor|].
    split; [|right; split; [exact Hfail | reflexivity]].
    rewrite app_nil_r. exact Hns.
Qed.

Lemma bounded_chain_assert {A} msg w :
  bounded_chain (A := A) w (InternalAssert msg, w).
Proof.
  exists [], []. cbn [fst snd calls app length].
  split; [symmetry; apply app_nil_r|]. split; [lia|].
  split; [constructor|]. split; [constructor|]. split; [constructor|].
  right. split; reflexivity.
Qed.

Ltac chain_direct Hp Hobj :=
  eapply (bounded_chain_commit _ _ _ _ _ _ _ _ _ []);
  [ exact Hp | exact Hobj | reflexivity | reflexivity
  | symmetry; apply app_nil_r | cbn; lia | constructor ].

Ltac chain_via Hp Hobj :=
  eapply (bounded_chain_commit _ _ _ _ _ _ _ _ _ [_]);
  [ exact Hp | exact Hobj | reflexivity | reflexivity | reflexivity
  | cbn; lia | constructor; [cbn; auto | constructor] ].

(** C8.  A dispatch is a chain of bounded depth and comes to an end: from
    the Statement-level template of a base class there is at most one step
    to the generic overload for Val or Expr, then either exactly one call
    of a concrete-kind overload, after which the dispatch ends as that
    overload ends, or the internal assertion; from a Val-level or
    Expr-level template there is the last step only.  No step leads back
    to the Statement-level overload.  The concrete-kind overloads are
    bodies that do not re-enter the dispatch. *)
Theorem dispatch_chain_is_bounded
    (Tv : Overloads HS unit) (Tc : ConstOverloads HS) (Tm : Overloads HS N)
    a p w n obj :
  heap w !! p = Some n ->
  arg_object (objs w) a = Some obj ->
  (bounded_chain w (Statement_dispatch (OptOutDispatch Tv) a p w) /\
   bounded_chain w (Statement_dispatch (OptInDispatch Tv) a p w) /\
   bounded_chain w (Statement_const_dispatch (OptInConstDispatch Tc) a p w) /\
   bounded_chain w (Statement_mutator_dispatch (OptOutMutator Tm) a p w)) /\
  (bounded_chain w (Val_dispatch Tv a p w) /\
   bounded_chain w (Expr_dispatch Tv a p w) /\
   bounded_chain w (Val_const_dispatch Tc a p w) /\
   bounded_chain w (Expr_const_dispatch Tc a p w) /\
   bounded_chain w (Val_mutator_dispatch Tm a p w) /\
   bounded_chain w (Expr_mutator_dispatch Tm a p w)).
Proof.
  intros Hp Hobj. split.
  - change (OptInDispatch Tv) with (OptOutDispatch Tv).
    rewrite (Statement_dispatch_OptOutDispatch _ _ _ _ n Hp),
      (Statement_const_dispatch_OptInConstDispatch _ _ _ _ n Hp),
      (Statement_mutator_dispatch_OptOutMutator _ _ _ _ n Hp).
    destruct (isVal n); [|destruct (isExpr n)].
    + rewrite Val_dispatch_route, Val_const_dispatch_route,
        Val_mutator_dispatch_route.
      split; [|split; [|split]]; chain_via Hp Hobj.
    + rewrite Expr_dispatch_route, Expr_const_dispatch_route,
        Expr_mutator_dispatch_route.
      split; [|split; [|split]]; chain_via Hp Hobj.
    + split; [|split; [|split]]; apply bounded_chain_assert.
  - rewrite Val_dispatch_route, Expr_dispatch_route, Val_const_dispatch_route,
      Expr_const_dispatch_route, Val_mutator_dispatch_route,
      Expr_mutator_dispatch_route.
    split; [|split; [|split; [|split; [|split]]]]; chain_direct Hp Hobj.
Qed.

(** ** The order of the category tests *)

Lemma Val_kind_on_Val_side v c :
  Val_kind v = Some c -> Class.on_Expr_side (Class.Concrete c) = false.
Proof.
  unfold Val_kind. destruct (getValType v); try destruct (getDataType v);
    intros Hk; try discriminate; injection Hk as <-; reflexivity.
Qed.

Lemma route_on_Val_side {A} f (T : Overloads HS A) msg a p h l :
  Forall (fun c => Class.on_Expr_side (target c) = false)
    (route f T Val_kind msg a p h l).2.
Proof.
  unfold route. destruct (h !! p) as [v|]; [|constructor].
  destruct (Val_kind v) as [c|] eqn:Hk; [|constructor].
  destruct (arg_object l a) as [obj|]; [|constructor].
  destruct (T c obj h p) as [[r obj'] h']. cbn.
  constructor; [|constructor]. cbn. eapply Val_kind_on_Val_side, Hk.
Qed.

Lemma Val_path_commit {A} f (T : Overloads HS A) msg a p w w' :
  calls w' = calls w ++ [mkCall f Class.Val p] ->
  Val_path f p w (commit w' (route f T Val_kind msg a p (heap w') (objs w'))).
Proof.
  intros Hc. unfold Val_path. rewrite commit_calls, Hc, <- app_assoc.
  eexists. split; [reflexivity|]. apply route_on_Val_side.
Qed.

(** C9.  The Statement-level templates test [isVal] first.  For a
    Statement that answers yes to both category tests, each of the three
    is the call of the generic overload for Val of the handler; the
    generic overload for Expr has no part in the run, which is the same
    whatever that overload is; and at the base classes the run takes the
    Val path, with no call to the Expr side. *)
Theorem both_categories_take_the_Val_path
    (Gv Gc : Generic HS unit) (Gm : Generic HS N)
    (Tv : Overloads HS unit) (Tc : ConstOverloads HS) (Tm : Overloads HS N)
    a p w n :
  heap w !! p = Some n ->
  isVal n = true -> isExpr n = true ->
  (Statement_dispatch Gv a p w
     = with_parameter a (fun prm =>
         invoke_generic Visit Class.Val (generic_Val Gv) (ptr prm) p) w /\
   Statement_const_dispatch Gc a p w
     = with_parameter a (fun prm =>
         invoke_generic ConstVisit Class.Val (generic_Val Gc) (ptr prm) p) w /\
   Statement_mutator_dispatch Gm a p w
     = with_parameter a (fun prm =>
         invoke_generic Mutate Class.Val (generic_Val Gm) (ptr prm) p) w) /\
  (forall (E : nat -> N -> M HS unit) (Em : nat -> N -> M HS N),
     Statement_dispatch
       {| generic_Val := generic_Val Gv; generic_Expr := E |} a p w
       = Statement_dispatch Gv a p w /\
     Statement_const_dispatch
       {| generic_Val := generic_Val Gc; generic_Expr := E |} a p w
       = Statement_const_dispatch Gc a p w /\
     Statement_mutator_dispatch
       {| generic_Val := generic_Val Gm; generic_Expr := Em |} a p w
       = Statement_mutator_dispatch Gm a p w) /\
  (Val_path Visit p w (Statement_dispatch (OptOutDispatch Tv) a p w) /\
   Val_path Visit p w (Statement_dispatch (OptInDispatch Tv) a p w) /\
   Val_path ConstVisit p w
     (Statement_const_dispatch (OptInConstDispatch Tc) a p w) /\
   Val_path Mutate p w
     (Statement_mutator_dispatch (OptOutMutator Tm) a p w)).
Proof.
  intros Hp HV HE. split; [|split].
  - rewrite (Statement_dispatch_unfold _ _ _ _ n Hp),
      (Statement_const_dispatch_unfold _ _ _ _ n Hp),
      (Statement_mutator_dispatch_unfold _ _ _ _ n Hp), HV.
    auto.
  - intros E Em.
    rewrite !(Statement_dispatch_unfold _ _ _ _ n Hp),
      !(Statement_const_dispatch_unfold _ _ _ _ n Hp),
      !(Statement_mutator_dispatch_unfold _ _ _ _ n Hp), HV.
    auto.
  - change (OptInDispatch Tv) with (OptOutDispatch Tv).
    rewrite (Statement_dispatch_OptOutDispatch _ _ _ _ n Hp),
      (Statement_const_dispatch_OptInConstDispatch _ _ _ _ n Hp),
      (Statement_mutator_dispatch_OptOutMutator _ _ _ _ n Hp), HV.
    rewrite Val_dispatch_route, Val_const_dispatch_route,
      Val_mutator_dispatch_route.
    split; [|split; [|split]]; apply Val_path_commit; reflexivity.
Qed.

(** ** Dispatch is decided by the tags *)

Lemma same_tags_Val_kind n1 n2 : same_tags n1 n2 -> Val_kind n1 = Val_kind n2.
Proof.
  intros (_ & _ & HVT & HDT & _). unfold Val_kind. rewrite <- HVT.
  destruct (getValType n1); try reflexivity. rewrite <- HDT; reflexivity.
Qed.

Lemma same_tags_Expr_kind n1 n2 :
  same_tags n1 n2 -> Expr_kind n1 = Expr_kind n2.
Proof. intros (_ & _ & _ & _ & HET). unfold Expr_kind. rewrite HET. reflexivity. Qed.

Lemma overloads_called_commit {A} f (T : Overloads HS A) sel msg a p w w' v obj
    (generic : list Call) :
  heap w !! p = Some v -> arg_object (objs w) a = Some obj ->
  heap w' = heap w -> objs w' = objs w -> calls w' = calls w ++ generic ->
  overloads_called w
    (commit w' (route f T sel msg a p (heap w') (objs w')))
  = map (fun c => (family c, target c)) generic ++ called_for f (sel v).
Proof.
  intros Hp Hobj Hh Hl Hc. unfold overloads_called, new_calls.
  rewrite commit_calls, Hh, Hl, Hc, <- app_assoc, drop_app_length, map_app.
  f_equal. unfold route. rewrite Hp.
  destruct (sel v) as [c|]; [|reflexivity]. rewrite Hobj.
  destruct (T c obj (heap w) p) as [[r obj'] h']. reflexivity.
Qed.

Lemma overloads_called_nothing {A} (o : outcome A) w :
  overloads_called w (o, w) = [].
Proof.
  unfold overloads_called, new_calls. cbn [snd].
  rewrite drop_all. reflexivity.
Qed.

Ltac read_calls Hp Hobj :=
  erewrite (overloads_called_commit _ _ _ _ _ _ _ _ _ _ []);
  [ | exact Hp | exact Hobj | reflexivity | reflexivity
    | symmetry; apply app_nil_r ].

Ltac read_calls_via Hp Hobj :=
  erewrite (overloads_called_commit _ _ _ _ _ _ _ _ _ _ [_]);
  [ | exact Hp | exact Hobj | reflexivity | reflexivity | reflexivity ].

Lemma Visit_called_by_tags (T : Overloads HS unit) a p w n obj :
  heap w !! p = Some n -> arg_object (objs w) a = Some obj ->
  overloads_called w (Val_dispatch T a p w) = called_for Visit (Val_kind n) /\
  overloads_called w (Expr_dispatch T a p w) = called_for Visit (Expr_kind n) /\
  overloads_called w (Statement_dispatch (OptOutDispatch T) a p w)
  = if isVal n then (Visit, Class.Val) :: called_for Visit (Val_kind n)
    else if isExpr n then (Visit, Class.Expr) :: called_for Visit (Expr_kind n)
    else [].
Proof.
  intros Hp Hobj. split; [|split].
  - rewrite Val_dispatch_route. read_calls Hp Hobj. reflexivity.
  - rewrite Expr_dispatch_route. read_calls Hp Hobj. reflexivity.
  - rewrite (Statement_dispatch_OptOutDispatch _ _ _ _ n Hp).
    destruct (isVal n); [|destruct (isExpr n)].
    + rewrite Val_dispatch_route. read_calls_via Hp Hobj. reflexivity.
    + rewrite Expr_dispatch_route. read_calls_via Hp Hobj. reflexivity.
    + apply overloads_called_nothing.
Qed.

Lemma ConstVisit_called_by_tags (T : ConstOverloads HS) a p w n obj :
  heap w !! p = Some n -> arg_object (objs w) a = Some obj ->
  overloads_called w (Val_const_dispatch T a p w)
  = called_for ConstVisit (Val_kind n) /\
  overloads_called w (Expr_const_dispatch T a p w)
  = called_for ConstVisit (Expr_kind n) /\
  overloads_called w (Statement_const_dispatch (OptInConstDispatch T) a p w)
  = if isVal n then
      (ConstVisit, Class.Val) :: called_for ConstVisit (Val_kind n)
    else if isExpr n then
      (ConstVisit, Class.Expr) :: called_for ConstVisit (Expr_kind n)
    else [].
Proof.
  intros Hp Hobj. split; [|split].
  - rewrite Val_const_dispatch_route. read_calls Hp Hobj. reflexivity.
  - rewrite Expr_const_dispatch_route. read_calls Hp Hobj. reflexivity.
  - rewrite (Statement_const_dispatch_OptInConstDispatch _ _ _ _ n Hp).
    destruct (isVal n); [|destruct (isExpr n)].
    + rewrite Val_const_dispatch_route. read_calls_via Hp Hobj. reflexivity.
    + rewrite Expr_const_dispatch_route. read_calls_via Hp Hobj. reflexivity.
    + apply overloads_called_nothing.
Qed.

Lemma Mutate_called_by_tags (T : Overloads HS N) a p w n obj :
  heap w !! p = Some n -> arg_object (objs w) a = Some obj ->
  overloads_called w (Val_mutator_dispatch T a p w)
  = called_for Mutate (Val_kind n) /\
  overloads_called w (Expr_mutator_dispatch T a p w)
  = called_for Mutate (mutate_overload_called <$> Expr_kind n) /\
  overloads_called w (Statement_mutator_dispatch (OptOutMutator T) a p w)
  = if isVal n then (Mutate, Class.Val) :: called_for Mutate (Val_kind n)
    else if isExpr n then
      (Mutate, Class.Expr)
      :: called_for Mutate (mutate_overload_called <$> Expr_kind n)
    else [].
Proof.
  intros Hp Hobj. split; [|split].
  - rewrite Val_mutator_dispatch_route. read_calls Hp Hobj. reflexivity.
  - rewrite Expr_mutator_dispatch_route. read_calls Hp Hobj. reflexivity.
  - rewrite (Statement_mutator_dispatch_OptOutMutator _ _ _ _ n Hp).
    destruct (isVal n); [|destruct (isExpr n)].
    + rewrite Val_mutator_dispatch_route. read_calls_via Hp Hobj. reflexivity.
    + rewrite Expr_mutator_dispatch_route. read_calls_via Hp Hobj.
      reflexivity.
    + apply overloads_called_nothing.
Qed.

(** C10.  Dispatch is decided by the tags alone: for a fixed handler class,
    two runs on nodes that carry equal tags call the same overloads,
    whatever the addresses of the nodes, the rest of their state, the
    heaps, the handler objects and the logs of the two runs are. *)
Theorem tags_alone_select_the_overload
    (Tv : Overloads HS unit) (Tc : ConstOverloads HS) (Tm : Overloads HS N)
    a1 a2 p1 p2 w1 w2 n1 n2 obj1 obj2 :
  same_tags n1 n2 ->
  heap w1 !! p1 = Some n1 -> heap w2 !! p2 = Some n2 ->
  arg_object (objs w1) a1 = Some obj1 ->
  arg_object (objs w2) a2 = Some obj2 ->
  (overloads_called w1 (Val_dispatch Tv a1 p1 w1)
     = overloads_called w2 (Val_dispatch Tv a2 p2 w2) /\
   overloads_called w1 (Expr_dispatch Tv a1 p1 w1)
     = overloads_called w2 (Expr_dispatch Tv a2 p2 w2) /\
   overloads_called w1 (Statement_dispatch (OptOutDispatch Tv) a1 p1 w1)
     = overloads_called w2 (Statement_dispatch (OptOutDispatch Tv) a2 p2 w2)) /\
  (overloads_called w1 (Val_const_dispatch Tc a1 p1 w1)
     = overloads_called w2 (Val_const_dispatch Tc a2 p2 w2) /\
   overloads_called w1 (Expr_const_dispatch Tc a1 p1 w1)
     = overloads_called w2 (Expr_const_dispatch Tc a2 p2 w2) /\
   overloads_called w1
       (Statement_const_dispatch (OptInConstDispatch Tc) a1 p1 w1)
     = overloads_called w2
         (Statement_const_dispatch (OptInConstDispatch Tc) a2 p2 w2)) /\
  (overloads_called w1 (Val_mutator_dispatch Tm a1 p1 w1)
     = overloads_called w2 (Val_mutator_dispatch Tm a2 p2 w2) /\
   overloads_called w1 (Expr_mutator_dispatch Tm a1 p1 w1)
     = overloads_called w2 (Expr_mutator_dispatch Tm a2 p2 w2) /\
   overloads_called w1
       (Statement_mutator_dispatch (OptOutMutator Tm) a1 p1 w1)
     = overloads_called w2
         (Statement_mutator_dispatch (OptOutMutator Tm) a2 p2 w2)).
Proof.
  intros Htags Hp1 Hp2 Hobj1 Hobj2.
  pose proof (same_tags_Val_kind _ _ Htags) as HVk.
  pose proof (same_tags_Expr_kind _ _ Htags) as HEk.
  destruct Htags as (HV & HE & _).
  destruct (Visit_called_by_tags Tv a1 p1 w1 n1 obj1 Hp1 Hobj1)
    as (-> & -> & ->).
  destruct (Visit_called_by_tags Tv a2 p2 w2 n2 obj2 Hp2 Hobj2)
    as (-> & -> & ->).
  destruct (ConstVisit_called_by_tags Tc a1 p1 w1 n1 obj1 Hp1 Hobj1)
    as (-> & -> & ->).
  destruct (ConstVisit_called_by_tags Tc a2 p2 w2 n2 obj2 Hp2 Hobj2)
    as (-> & -> & ->).
  destruct (Mutate_called_by_tags Tm a1 p1 w1 n1 obj1 Hp1 Hobj1)
    as (-> & -> & ->).
  destruct (Mutate_called_by_tags Tm a2 p2 w2 n2 obj2 Hp2 Hobj2)
    as (-> & -> & ->).
  rewrite HVk, HEk, HV, HE. auto 10.
Qed.

End Properties.

(** ** The two ways of passing the handler, and the handler object *)

Section HandlerForms.

Context {HS : Type}.
Implicit Types (w : World HS) (a : argument HS).

Lemma touches_only_refl a (l : list HS) : touches_only a l l.
Proof. destruct a as [obj|q]; cbn; auto. Qed.

Lemma route_touches_only {A} f (T : Overloads HS A) sel msg a p h l :
  touches_only a l (route f T sel msg a p h l).1.2.
Proof.
  unfold route. destruct (h !! p) as [v|]; [|apply touches_only_refl].
  destruct (sel v) as [c|]; [|apply touches_only_refl].
  destruct (arg_object l a) as [obj|]; [|apply touches_only_refl].
  destruct (T c obj h p) as [[r obj'] h']. cbn [fst snd].
  destruct a as [o|q]; cbn; [reflexivity|].
  split; [apply length_insert|].
  intros q' Hq'. apply list_lookup_insert_ne. congruence.
Qed.

(** Every template leaves the handler objects of the caller as
    [touches_only] says. *)
Lemma Statement_dispatch_touches_only (T : Overloads HS unit) a p w :
  touches_only a (objs w)
    (objs (Statement_dispatch (OptOutDispatch T) a p w).2).
Proof.
  destruct (heap w !! p) as [n|] eqn:Hp.
  - rewrite (Statement_dispatch_OptOutDispatch _ _ _ _ n Hp).
    destruct (isVal n); [|destruct (isExpr n)].
    + rewrite Val_dispatch_route, commit_objs.
      apply (route_touches_only _ _ _ _ _ _ _ (objs w)).
    + rewrite Expr_dispatch_route, commit_objs.
      apply (route_touches_only _ _ _ _ _ _ _ (objs w)).
    + apply touches_only_refl.
  - rewrite Statement_dispatch_fault by exact Hp. apply touches_only_refl.
Qed.

Lemma Statement_const_dispatch_touches_only (T : ConstOverloads HS) a p w :
  touches_only a (objs w)
    (objs (Statement_const_dispatch (OptInConstDispatch T) a p w).2).
Proof.
  destruct (heap w !! p) as [n|] eqn:Hp.
  - rewrite (Statement_const_dispatch_OptInConstDispatch _ _ _ _ n Hp).
    destruct (isVal n); [|destruct (isExpr n)].
    + rewrite Val_const_dispatch_route, commit_objs.
      apply (route_touches_only _ (fun c => read_only (T c)) _ _ _ _ _
               (objs w)).
    + rewrite Expr_const_dispatch_route, commit_objs.
      apply (route_touches_only _ (fun c => read_only (T c)) _ _ _ _ _
               (objs w)).
    + apply touches_only_refl.
  - rewrite Statement_const_dispatch_fault by exact Hp.
    apply touches_only_refl.
Qed.

Lemma Statement_mutator_dispatch_touches_only (T : Overloads HS N) a p w :
  touches_only a (objs w)
    (objs (Statement_mutator_dispatch (OptOutMutator T) a p w).2).
Proof.
  destruct (heap w !! p) as [n|] eqn:Hp.
  - rewrite (Statement_mutator_dispatch_OptOutMutator _ _ _ _ n Hp).
    destruct (isVal n); [|destruct (isExpr n)].
    + rewrite Val_mutator_dispatch_route, commit_objs.
      apply (route_touches_only _ _ _ _ _ _ _ (objs w)).
    + rewrite Expr_mutator_dispatch_route, commit_objs.
      apply (route_touches_only _ _ _ _ _ _ _ (objs w)).
    + apply touches_only_refl.
  - rewrite Statement_mutator_dispatch_fault by exact Hp.
    apply touches_only_refl.
Qed.

Lemma agree_from_parts {A} q obj w (D : argument HS -> outcome A * World HS) :
  same_calls_and_result (D (Direct obj)) (D (Indirect q)) ->
  (forall a, touches_only a (objs w) (objs (D a).2)) ->
  agree_up_to_the_handler_object q w (D (Direct obj)) (D (Indirect q)).
Proof.
  intros Hsame Htouch. unfold agree_up_to_the_handler_object.
  split; [exact Hsame|]. split; [exact (Htouch (Direct obj))|].
  exact (Htouch (Indirect q)).
Qed.

(** C6.  Passing the handler as an object and passing the address of that
    object agree up to the handler object, for a handler of the class the
    template is instantiated at: in all nine templates (at the base classes
    for the Statement-level ones) the two runs call the same overloads with
    the same nodes, end with the same outcome, which for Mutate carries the
    Statement returned, and leave the same heap.  They differ in the
    handler object: passed by value, the overloads work on a copy and the
    handler objects of the caller are left as they were; passed by address,
    the object at that address is the one that changes, and no other. *)
Theorem handler_forms_agree_up_to_the_handler_object
    (Cv : HandlerClass (Overloads HS unit))
    (Cc : HandlerClass (ConstOverloads HS))
    (Cm : HandlerClass (Overloads HS N))
    q obj p w :
  objs w !! q = Some obj ->
  instantiated Cv = dynamic Cv ->
  instantiated Cc = dynamic Cc ->
  instantiated Cm = dynamic Cm ->
  (agree_up_to_the_handler_object q w
     (Val_dispatch (overloads_run Cv (Direct obj)) (Direct obj) p w)
     (Val_dispatch (overloads_run (HS := HS) Cv (Indirect q)) (Indirect q) p w) /\
   agree_up_to_the_handler_object q w
     (Expr_dispatch (overloads_run Cv (Direct obj)) (Direct obj) p w)
     (Expr_dispatch (overloads_run (HS := HS) Cv (Indirect q)) (Indirect q) p w) /\
   agree_up_to_the_handler_object q w
     (Statement_dispatch (OptOutDispatch (overloads_run Cv (Direct obj)))
        (Direct obj) p w)
     (Statement_dispatch (OptOutDispatch (overloads_run (HS := HS) Cv (Indirect q)))
        (Indirect q) p w) /\
   agree_up_to_the_handler_object q w
     (Statement_dispatch (OptInDispatch (overloads_run Cv (Direct obj)))
        (Direct obj) p w)
     (Statement_dispatch (OptInDispatch (overloads_run (HS := HS) Cv (Indirect q)))
        (Indirect q) p w)) /\
  (agree_up_to_the_handler_object q w
     (Val_const_dispatch (overloads_run Cc (Direct obj)) (Direct obj) p w)
     (Val_const_dispatch (overloads_run (HS := HS) Cc (Indirect q)) (Indirect q) p w) /\
   agree_up_to_the_handler_object q w
     (Expr_const_dispatch (overloads_run Cc (Direct obj)) (Direct obj) p w)
     (Expr_const_dispatch (overloads_run (HS := HS) Cc (Indirect q)) (Indirect q) p w) /\
   agree_up_to_the_handler_object q w
     (Statement_const_dispatch
        (OptInConstDispatch (overloads_run Cc (Direct obj))) (Direct obj) p w)
     (Statement_const_dispatch
        (OptInConstDispatch (overloads_run (HS := HS) Cc (Indirect q))) (Indirect q) p
        w)) /\
  (agree_up_to_the_handler_object q w
     (Val_mutator_dispatch (overloads_run Cm (Direct obj)) (Direct obj) p w)
     (Val_mutator_dispatch (overloads_run (HS := HS) Cm (Indirect q)) (Indirect q) p w) /\
   agree_up_to_the_handler_object q w
     (Expr_mutator_dispatch (overloads_run Cm (Direct obj)) (Direct obj) p w)
     (Expr_mutator_dispatch (overloads_run (HS := HS) Cm (Indirect q)) (Indirect q) p w) /\
   agree_up_to_the_handler_object q w
     (Statement_mutator_dispatch
        (OptOutMutator (overloads_run Cm (Direct obj))) (Direct obj) p w)
     (Statement_mutator_dispatch
        (OptOutMutator (overloads_run (HS := HS) Cm (Indirect q))) (Indirect q) p w)).
Proof.
  intros Hq Ev Ec Em. cbn [overloads_run]. rewrite Ev, Ec, Em.
  destruct (same_calls_and_result_either_way (dynamic Cv) (dynamic Cc)
              (dynamic Cm) q obj p w Hq)
    as ((V1 & V2 & V3 & V4) & (C1 & C2 & C3) & (M1 & M2 & M3)).
  split; [|split].
  - split; [|split; [|split]].
    + apply (agree_from_parts q obj w
               (fun a => Val_dispatch (dynamic Cv) a p w) V1).
      intros a. rewrite Val_dispatch_route, commit_objs.
      apply route_touches_only.
    + apply (agree_from_parts q obj w
               (fun a => Expr_dispatch (dynamic Cv) a p w) V2).
      intros a. rewrite Expr_dispatch_route, commit_objs.
      apply route_touches_only.
    + apply (agree_from_parts q obj w
               (fun a => Statement_dispatch (OptOutDispatch (dynamic Cv))
                           a p w) V3).
      intros a. apply Statement_dispatch_touches_only.
    + apply (agree_from_parts q obj w
               (fun a => Statement_dispatch (OptInDispatch (dynamic Cv))
                           a p w) V4).
      intros a. apply Statement_dispatch_touches_only.
  - split; [|split].
    + apply (agree_from_parts q obj w
               (fun a => Val_const_dispatch (dynamic Cc) a p w) C1).
      intros a. rewrite Val_const_dispatch_route, commit_objs.
      apply (route_touches_only _ (fun c => read_only (dynamic Cc c))).
    + apply (agree_from_parts q obj w
               (fun a => Expr_const_dispatch (dynamic Cc) a p w) C2).
      intros a. rewrite Expr_const_dispatch_route, commit_objs.
      apply (route_touches_only _ (fun c => read_only (dynamic Cc c))).
    + apply (agree_from_parts q obj w
               (fun a => Statement_const_dispatch
                           (OptInConstDispatch (dynamic Cc)) a p w) C3).
      intros a. apply Statement_const_dispatch_touches_only.
  - split; [|split].
    + apply (agree_from_parts q obj w
               (fun a => Val_mutator_dispatch (dynamic Cm) a p w) M1).
      intros a. rewrite Val_mutator_dispatch_route, commit_objs.
      apply route_touches_only.
    + apply (agree_from_parts q obj w
               (fun a => Expr_mutator_dispatch (dynamic Cm) a p w) M2).
      intros a. rewrite Expr_mutator_dispatch_route, commit_objs.
      apply route_touches_only.
    + apply (agree_from_parts q obj w
               (fun a => Statement_mutator_dispatch
                           (OptOutMutator (dynamic Cm)) a p w) M3).
      intros a. apply Statement_mutator_dispatch_touches_only.
Qed.

End HandlerForms.

(** ** The theorems at sample inputs *)

(** Scenario A: a Float dispatched through Visit; the overload for Float is
    called once, with that node. *)
Example Float_through_Visit :
  Val_dispatch Sample.recorder (Indirect 0) 1%N Sample.world
  = (Returned tt,
     {| heap := Sample.nodes; objs := [[5%N]];
        calls := [mkCall Visit (Class.Concrete Class.Float) 1%N] |}).
Proof. vm_compute. reflexivity. Qed.

(** Scenario B: a ForLoop dispatched through Mutate; the replacement the
    overload for ForLoop returns comes back from both levels. *)
Example ForLoop_through_Mutate :
  (Expr_mutator_dispatch Sample.renamer (Indirect 0) 2%N Sample.world).1
  = Returned 1202%N /\
  (Statement_mutator_dispatch (OptOutMutator Sample.renamer) (Indirect 0)
     2%N Sample.world).1
  = Returned 1202%N /\
  (Sample.renamer Class.ForLoop [] Sample.nodes 2%N).1.1 = Normal 1202%N.
Proof. vm_compute. auto. Qed.

(** Through the Statement level the log shows the generic overload, then
    the concrete one. *)
Example Float_through_Statement_dispatch :
  calls (Statement_dispatch (OptOutDispatch Sample.recorder) (Direct [])
           1%N Sample.world).2
  = [mkCall Visit Class.Val 1%N;
     mkCall Visit (Class.Concrete Class.Float) 1%N].
Proof. vm_compute. reflexivity. Qed.

(** A handler passed by address is updated in place; passed by value, the
    copy is updated and the object of the caller is not. *)
Example handler_object_after_the_call :
  objs (Val_dispatch Sample.recorder (Indirect 0) 1%N Sample.world).2
  = [[5%N]] /\
  objs (Val_dispatch Sample.recorder (Direct []) 1%N Sample.world).2
  = [[]].
Proof. vm_compute. auto. Qed.

(** A Val with an unlisted kind tag, entered at the Statement level: the
    generic overload is called, then the Val-level assertion fails. *)
Example stray_Val_through_Statement :
  Statement_dispatch (OptOutDispatch Sample.recorder) (Indirect 0) 4%N
    Sample.world
  = (InternalAssert "Unknown valtype in dispatch!",
     {| heap := Sample.nodes; objs := [[]];
        calls := [mkCall Visit Class.Val 4%N] |}).
Proof. vm_compute. reflexivity. Qed.

Lemma Visit_calls_the_matching_overload_witness :
  heap Sample.world !! 1%N = Some Sample.a_Float /\
  arg_object (objs Sample.world) (Indirect 0) = Some [] /\
  Val_kind Sample.a_Float = Some Class.Float /\
  Val_dispatch Sample.recorder (Indirect 0) 1%N Sample.world
  = (Returned tt,
     {| heap := Sample.nodes; objs := [[5%N]];
        calls := [mkCall Visit (Class.Concrete Class.Float) 1%N] |}).
Proof.
  assert (Hp : heap Sample.world !! 1%N = Some Sample.a_Float)
    by (vm_compute; reflexivity).
  assert (Hobj : arg_object (objs Sample.world) (Indirect 0) = Some [])
    by reflexivity.
  split; [exact Hp|]. split; [exact Hobj|]. split; [reflexivity|].
  destruct (Visit_calls_the_matching_overload Sample.recorder (Indirect 0)
              1%N Sample.world Sample.a_Float [] Hp Hobj) as [HVal _].
  destruct (HVal Class.Float eq_refl) as [-> _]. reflexivity.
Defined.

Lemma Expr_mutator_dispatch_IfThenElse_calls_ForLoop_witness :
  heap Sample.world !! 3%N = Some Sample.an_IfThenElse /\
  arg_object (objs Sample.world) (Indirect 0) = Some [] /\
  getExprType Sample.an_IfThenElse = ExprType.IfThenElse /\
  calls (snd (Expr_mutator_dispatch Sample.renamer (Indirect 0) 3%N
                Sample.world))
  = [mkCall Mutate (Class.Concrete Class.ForLoop) 3%N].
Proof.
  assert (Hp : heap Sample.world !! 3%N = Some Sample.an_IfThenElse)
    by (vm_compute; reflexivity).
  assert (Hobj : arg_object (objs Sample.world) (Indirect 0) = Some [])
    by reflexivity.
  split; [exact Hp|]. split; [exact Hobj|]. split; [reflexivity|].
  rewrite (Expr_mutator_dispatch_IfThenElse_calls_ForLoop Sample.renamer
             (Indirect 0) 3%N Sample.world Sample.an_IfThenElse [] Hp Hobj
             eq_refl).
  reflexivity.
Defined.

Lemma unmatched_tag_fails_the_assertion_witness :
  heap Sample.world !! 4%N = Some Sample.a_stray_Val /\
  Val_kind Sample.a_stray_Val = None /\
  Val_dispatch Sample.recorder (Direct []) 4%N Sample.world
  = (InternalAssert "Unknown valtype in dispatch!", Sample.world).
Proof.
  assert (Hp : heap Sample.world !! 4%N = Some Sample.a_stray_Val)
    by (vm_compute; reflexivity).
  split; [exact Hp|]. split; [reflexivity|].
  destruct (unmatched_tag_fails_the_assertion Sample.recorder Sample.reader
              Sample.renamer (OptOutDispatch Sample.recorder)
              (OptInConstDispatch Sample.reader)
              (OptOutMutator Sample.renamer) (Direct []) 4%N Sample.world
              Sample.a_stray_Val Hp) as [HVal _].
  destruct (HVal eq_refl) as [-> _]. reflexivity.
Defined.

Lemma Statement_level_commutes_with_category_witness :
  heap Sample.world !! 1%N = Some Sample.a_Float /\
  isVal Sample.a_Float = true /\
  same_effect
    (Statement_dispatch (OptOutDispatch Sample.recorder) (Indirect 0) 1%N
       Sample.world)
    (Val_dispatch Sample.recorder (Indirect 0) 1%N Sample.world).
Proof.
  assert (Hp : heap Sample.world !! 1%N = Some Sample.a_Float)
    by (vm_compute; reflexivity).
  split; [exact Hp|]. split; [reflexivity|].
  destruct (Statement_level_commutes_with_category Sample.recorder
              Sample.reader Sample.renamer (Indirect 0) 1%N Sample.world
              Sample.a_Float Hp) as [HVal _].
  destruct (HVal eq_refl) as [H _]. exact H.
Defined.

Lemma Mutate_of_IfThenElse_returns_the_ForLoop_result_witness :
  heap Sample.world !! 3%N = Some Sample.an_IfThenElse /\
  (Sample.renamer Class.IfThenElse [] Sample.nodes 3%N).1.1 = Normal 1303%N /\
  (Sample.renamer Class.ForLoop [] Sample.nodes 3%N).1.1 = Normal 1203%N /\
  (Expr_mutator_dispatch Sample.renamer (Indirect 0) 3%N Sample.world).1
  = Returned 1203%N /\
  (Statement_mutator_dispatch (OptOutMutator Sample.renamer) (Indirect 0)
     3%N Sample.world).1
  = Returned 1203%N.
Proof.
  assert (Hp : heap Sample.world !! 3%N = Some Sample.an_IfThenElse)
    by (vm_compute; reflexivity).
  split; [exact Hp|]. split; [reflexivity|]. split; [reflexivity|].
  apply (Mutate_of_IfThenElse_returns_the_ForLoop_result Sample.renamer
           (Indirect 0) 3%N Sample.world Sample.an_IfThenElse [] 1203%N
           [12%N]
           (Sample.renamer Class.ForLoop [] Sample.nodes 3%N).2
           Hp eq_refl eq_refl eq_refl eq_refl eq_refl).
Defined.

Lemma handler_forms_agree_up_to_the_handler_object_witness :
  objs Sample.world !! 0 = Some [] /\
  agree_up_to_the_handler_object 0 Sample.world
    (Val_dispatch Sample.recorder (Direct []) 1%N Sample.world)
    (Val_dispatch Sample.recorder (Indirect 0) 1%N Sample.world).
Proof.
  split; [reflexivity|].
  destruct (handler_forms_agree_up_to_the_handler_object
              (SampleClass.plain Sample.recorder)
              (SampleClass.plain Sample.reader)
              (SampleClass.plain Sample.renamer)
              0 [] 1%N Sample.world eq_refl eq_refl eq_refl eq_refl)
    as [[H _] _].
  exact H.
Defined.

(** The two ways of passing a handler are not equivalent in all that can be
    observed.  With the handler object at address 0 of the sample world
    passed to [Val::dispatch] for the Float at address 1, the run by value
    and the run by address are different runs: the first leaves the handler
    object as it was, the second leaves it changed.  And a mutator of a
    derived class, passed by value to [Expr::mutator_dispatch] for the
    ForLoop at address 2, is cut down to [OptOutMutator], whose overload
    returns the node itself, while by address its own overload runs and
    returns the replacement. *)
Lemma handler_forms_are_not_equivalent :
  objs Sample.world !! 0 = Some [] /\
  Val_dispatch Sample.recorder (Direct []) 1%N Sample.world
    <> Val_dispatch Sample.recorder (Indirect 0) 1%N Sample.world /\
  objs (Val_dispatch Sample.recorder (Direct []) 1%N Sample.world).2
    = [[]] /\
  objs (Val_dispatch Sample.recorder (Indirect 0) 1%N Sample.world).2
    = [[5%N]] /\
  (Expr_mutator_dispatch
     (overloads_run (HS := list N) SampleClass.derived_mutator (Direct []))
     (Direct []) 2%N Sample.world).1
    = Returned 2%N /\
  (Expr_mutator_dispatch
     (overloads_run (HS := list N) SampleClass.derived_mutator (Indirect 0))
     (Indirect 0) 2%N Sample.world).1
    = Returned 1202%N.
Proof.
  split; [reflexivity|]. split.
  - intros Heq.
    apply (f_equal (fun r : outcome unit * World (list N) => objs r.2))
      in Heq.
    vm_compute in Heq. discriminate.
  - vm_compute. auto.
Qed.

Lemma dispatch_chain_is_bounded_witness :
  heap Sample.world !! 1%N = Some Sample.a_Float /\
  arg_object (objs Sample.world) (Indirect 0) = Some [] /\
  bounded_chain Sample.world
    (Statement_dispatch (OptOutDispatch Sample.recorder) (Indirect 0) 1%N
       Sample.world).
Proof.
  assert (Hp : heap Sample.world !! 1%N = Some Sample.a_Float)
    by (vm_compute; reflexivity).
  split; [exact Hp|]. split; [reflexivity|].
  destruct (dispatch_chain_is_bounded Sample.recorder Sample.reader
              Sample.renamer (Indirect 0) 1%N Sample.world Sample.a_Float []
              Hp eq_refl) as [[H _] _].
  exact H.
Defined.

Lemma both_categories_take_the_Val_path_witness :
  heap Sample.world !! 5%N = Some Sample.a_hybrid /\
  isVal Sample.a_hybrid = true /\ isExpr Sample.a_hybrid = true /\
  Val_path Visit 5%N Sample.world
    (Statement_dispatch (OptOutDispatch Sample.recorder) (Indirect 0) 5%N
       Sample.world).
Proof.
  assert (Hp : heap Sample.world !! 5%N = Some Sample.a_hybrid)
    by (vm_compute; reflexivity).
  split; [exact Hp|]. split; [reflexivity|]. split; [reflexivity|].
  destruct (both_categories_take_the_Val_path
              (OptOutDispatch Sample.recorder)
              (OptInConstDispatch Sample.reader)
              (OptOutMutator Sample.renamer)
              Sample.recorder Sample.reader Sample.renamer
              (Indirect 0) 5%N Sample.world Sample.a_hybrid Hp eq_refl eq_refl)
    as (_ & _ & H & _).
  exact H.
Defined.

Lemma tags_alone_select_the_overload_witness :
  same_tags Sample.a_Float Sample.another_Float /\
  heap Sample.world !! 1%N = Some Sample.a_Float /\
  heap Sample.other_world !! 9%N = Some Sample.another_Float /\
  overloads_called Sample.world
    (Val_dispatch Sample.recorder (Indirect 0) 1%N Sample.world)
  = overloads_called Sample.other_world
      (Val_dispatch Sample.recorder (Indirect 1) 9%N Sample.other_world).
Proof.
  assert (Htags : same_tags Sample.a_Float Sample.another_Float)
    by (unfold same_tags; cbn; auto 10).
  assert (Hp1 : heap Sample.world !! 1%N = Some Sample.a_Float)
    by (vm_compute; reflexivity).
  assert (Hp2 : heap Sample.other_world !! 9%N = Some Sample.another_Float)
    by (vm_compute; reflexivity).
  split; [exact Htags|]. split; [exact Hp1|]. split; [exact Hp2|].
  destruct (tags_alone_select_the_overload Sample.recorder Sample.reader
              Sample.renamer (Indirect 0) (Indirect 1) 1%N 9%N Sample.world
              Sample.other_world Sample.a_Float Sample.another_Float
              [] [3%N] Htags Hp1 Hp2 eq_refl eq_refl) as [[H _] _].
  exact H.
Defined.

(** ** Further properties of the dispatch code *)

Section Coverage.

Context {HS : Type}.
Implicit Types (w : World HS) (a : argument HS).

(** X4.  A handler passed by value is a copy: whatever the overloads do to
    it, the object store of the caller is the same after the call as
    before, in all nine templates (the Statement-level ones at the base
    classes). *)
Theorem handler_passed_by_value_is_a_copy
    (Tv : Overloads HS unit) (Tc : ConstOverloads HS) (Tm : Overloads HS N)
    obj p w :
  (objs (Val_dispatch Tv (Direct obj) p w).2 = objs w /\
   objs (Expr_dispatch Tv (Direct obj) p w).2 = objs w /\
   objs (Statement_dispatch (OptOutDispatch Tv) (Direct obj) p w).2 = objs w /\
   objs (Statement_dispatch (OptInDispatch Tv) (Direct obj) p w).2 = objs w) /\
  (objs (Val_const_dispatch Tc (Direct obj) p w).2 = objs w /\
   objs (Expr_const_dispatch Tc (Direct obj) p w).2 = objs w /\
   objs (Statement_const_dispatch (OptInConstDispatch Tc) (Direct obj) p w).2
   = objs w) /\
  (objs (Val_mutator_dispatch Tm (Direct obj) p w).2 = objs w /\
   objs (Expr_mutator_dispatch Tm (Direct obj) p w).2 = objs w /\
   objs (Statement_mutator_dispatch (OptOutMutator Tm) (Direct obj) p w).2
   = objs w).
Proof.
  change (OptInDispatch Tv) with (OptOutDispatch Tv).
  assert (HS1 :
    objs (Statement_dispatch (OptOutDispatch Tv) (Direct obj) p w).2 = objs w).
  { destruct (heap w !! p) as [n|] eqn:Hp.
    - rewrite (Statement_dispatch_OptOutDispatch _ _ _ _ n Hp).
      destruct (isVal n); [|destruct (isExpr n)]; [| |reflexivity].
      + rewrite Val_dispatch_route, commit_objs.
        apply route_by_value_keeps_objects.
      + rewrite Expr_dispatch_route, commit_objs.
        apply route_by_value_keeps_objects.
    - rewrite Statement_dispatch_fault by exact Hp. reflexivity. }
  assert (HS2 :
    objs (Statement_const_dispatch (OptInConstDispatch Tc) (Direct obj) p w).2
    = objs w).
  { destruct (heap w !! p) as [n|] eqn:Hp.
    - rewrite (Statement_const_dispatch_OptInConstDispatch _ _ _ _ n Hp).
      destruct (isVal n); [|destruct (isExpr n)]; [| |reflexivity].
      + rewrite Val_const_dispatch_route, commit_objs.
        apply (route_by_value_keeps_objects _ (fun c => read_only (Tc c))).
      + rewrite Expr_const_dispatch_route, commit_objs.
        apply (route_by_value_keeps_objects _ (fun c => read_only (Tc c))).
    - rewrite Statement_const_dispatch_fault by exact Hp. reflexivity. }
  assert (HS3 :
    objs (Statement_mutator_dispatch (OptOutMutator Tm) (Direct obj) p w).2
    = objs w).
  { destruct (heap w !! p) as [n|] eqn:Hp.
    - rewrite (Statement_mutator_dispatch_OptOutMutator _ _ _ _ n Hp).
      destruct (isVal n); [|destruct (isExpr n)]; [| |reflexivity].
      + rewrite Val_mutator_dispatch_route, commit_objs.
        apply route_by_value_keeps_objects.
      + rewrite Expr_mutator_dispatch_route, commit_objs.
        apply route_by_value_keeps_objects.
    - rewrite Statement_mutator_dispatch_fault by exact Hp. reflexivity. }
  rewrite HS1, HS2, HS3.
  rewrite Val_dispatch_route, Expr_dispatch_route, Val_const_dispatch_route,
    Expr_const_dispatch_route, Val_mutator_dispatch_route,
    Expr_mutator_dispatch_route, !commit_objs.
  rewrite !route_by_value_keeps_objects.
  auto 12.
Qed.

(** X5.  The Statement-level member functions of the base classes reach
    the concrete overload: [handle(Statement* s)] of [OptOutDispatch],
    [OptInDispatch] and [OptInConstDispatch] and [mutate(Statement* s)] of
    [OptOutMutator], called on a handler object for a Val of kind [c], make
    the call of the generic overload for Val and then exactly one call of
    the overload for [c], on that same handler object and with that same
    node; for an Expr of kind [c] that is not a Val, the generic overload
    for Expr and then the overload for [c] (for Mutate, the overload the
    Expr switch casts to). *)
Theorem handle_Statement_reaches_the_concrete_overload
    (Tv : Overloads HS unit) (Tc : ConstOverloads HS) (Tm : Overloads HS N)
    this p w n obj c :
  heap w !! p = Some n ->
  objs w !! this = Some obj ->
  (isVal n = true -> Val_kind n = Some c ->
     OptOutDispatch_handle_Statement Tv this p w
       = one_call Visit c (Tv c) (Indirect this) obj p
           (logged (mkCall Visit Class.Val p) w) /\
     OptInDispatch_handle_Statement Tv this p w
       = one_call Visit c (Tv c) (Indirect this) obj p
           (logged (mkCall Visit Class.Val p) w) /\
     OptInConstDispatch_handle_Statement Tc this p w
       = one_call ConstVisit c (read_only (Tc c)) (Indirect this) obj p
           (logged (mkCall ConstVisit Class.Val p) w) /\
     OptOutMutator_mutate_Statement Tm this p w
       = one_call Mutate c (Tm c) (Indirect this) obj p
           (logged (mkCall Mutate Class.Val p) w)) /\
  (isVal n = false -> isExpr n = true -> Expr_kind n = Some c ->
     OptOutDispatch_handle_Statement Tv this p w
       = one_call Visit c (Tv c) (Indirect this) obj p
           (logged (mkCall Visit Class.Expr p) w) /\
     OptInDispatch_handle_Statement Tv this p w
       = one_call Visit c (Tv c) (Indirect this) obj p
           (logged (mkCall Visit Class.Expr p) w) /\
     OptInConstDispatch_handle_Statement Tc this p w
       = one_call ConstVisit c (read_only (Tc c)) (Indirect this) obj p
           (logged (mkCall ConstVisit Class.Expr p) w) /\
     OptOutMutator_mutate_Statement Tm this p w
       = one_call Mutate (mutate_overload_called c)
           (Tm (mutate_overload_called c)) (Indirect this) obj p
           (logged (mkCall Mutate Class.Expr p) w)).
Proof.
  intros Hp Hobj.
  unfold OptOutDispatch_handle_Statement, OptInDispatch_handle_Statement,
    OptInConstDispatch_handle_Statement, OptOutMutator_mutate_Statement.
  change (OptInDispatch Tv) with (OptOutDispatch Tv).
  rewrite (Statement_dispatch_OptOutDispatch _ _ _ _ n Hp),
    (Statement_const_dispatch_OptInConstDispatch _ _ _ _ n Hp),
    (Statement_mutator_dispatch_OptOutMutator _ _ _ _ n Hp).
  split.
  - intros HV Hk. rewrite HV.
    rewrite Val_dispatch_route, Val_const_dispatch_route,
      Val_mutator_dispatch_route.
    split; [|split; [|split]].
    + apply (route_selected _ _ _ _ (Indirect this) _ (logged _ w) n c obj Hp Hk
               Hobj).
    + apply (route_selected _ _ _ _ (Indirect this) _ (logged _ w) n c obj Hp Hk
               Hobj).
    + apply (route_selected _ (fun c => read_only (Tc c)) _ _ (Indirect this)
               _ (logged _ w) n c obj Hp Hk Hobj).
    + apply (route_selected _ _ _ _ (Indirect this) _ (logged _ w) n c obj Hp Hk
               Hobj).
  - intros HV HE Hk. rewrite HV, HE.
    rewrite Expr_dispatch_route, Expr_const_dispatch_route,
      Expr_mutator_dispatch_route.
    split; [|split; [|split]].
    + apply (route_selected _ _ _ _ (Indirect this) _ (logged _ w) n c obj Hp Hk
               Hobj).
    + apply (route_selected _ _ _ _ (Indirect this) _ (logged _ w) n c obj Hp Hk
               Hobj).
    + apply (route_selected _ (fun c => read_only (Tc c)) _ _ (Indirect this)
               _ (logged _ w) n c obj Hp Hk Hobj).
    + apply (route_selected _ _ _ _ (Indirect this) _ (logged _ w) n
               (mutate_overload_called c) obj Hp); [|exact Hobj].
      rewrite Hk. reflexivity.
Qed.

(** X6.  An unmatched tag below the Statement level: at the base classes, a
    Val whose tags match no case, entered through a Statement-level
    template, fails the assertion of the Val-level template after the
    generic overload for Val has been called, and that call is all that
    happened; an Expr that is not a Val and whose tag matches no case fails
    the assertion of the Expr-level template after the generic overload
    for Expr has been called.  No concrete-kind overload runs. *)
Theorem unmatched_tag_below_the_Statement_level
    (Tv : Overloads HS unit) (Tc : ConstOverloads HS) (Tm : Overloads HS N)
    a p w n :
  heap w !! p = Some n ->
  (isVal n = true -> Val_kind n = None ->
     Statement_dispatch (OptOutDispatch Tv) a p w
       = (InternalAssert "Unknown valtype in dispatch!",
          logged (mkCall Visit Class.Val p) w) /\
     Statement_dispatch (OptInDispatch Tv) a p w
       = (InternalAssert "Unknown valtype in dispatch!",
          logged (mkCall Visit Class.Val p) w) /\
     Statement_const_dispatch (OptInConstDispatch Tc) a p w
       = (InternalAssert "Unknown valtype in dispatch!",
          logged (mkCall ConstVisit Class.Val p) w) /\
     Statement_mutator_dispatch (OptOutMutator Tm) a p w
       = (InternalAssert "Unknown valtype in dispatch!",
          logged (mkCall Mutate Class.Val p) w)) /\
  (isVal n = false -> isExpr n = true -> Expr_kind n = None ->
     Statement_dispatch (OptOutDispatch Tv) a p w
       = (InternalAssert "Unknown exprtype in dispatch!",
          logged (mkCall Visit Class.Expr p) w) /\
     Statement_dispatch (OptInDispatch Tv) a p w
       = (InternalAssert "Unknown exprtype in dispatch!",
          logged (mkCall Visit Class.Expr p) w) /\
     Statement_const_dispatch (OptInConstDispatch Tc) a p w
       = (InternalAssert "Unknown exprtype in dispatch!",
          logged (mkCall ConstVisit Class.Expr p) w) /\
     Statement_mutator_dispatch (OptOutMutator Tm) a p w
       = (InternalAssert "Unknown exprtype in dispatch!",
          logged (mkCall Mutate Class.Expr p) w)).
Proof.
  intros Hp.
  change (OptInDispatch Tv) with (OptOutDispatch Tv).
  rewrite (Statement_dispatch_OptOutDispatch _ _ _ _ n Hp),
    (Statement_const_dispatch_OptInConstDispatch _ _ _ _ n Hp),
    (Statement_mutator_dispatch_OptOutMutator _ _ _ _ n Hp).
  split.
  - intros HV Hk. rewrite HV.
    rewrite Val_dispatch_route, Val_const_dispatch_route,
      Val_mutator_dispatch_route.
    split; [|split; [|split]];
      apply (route_unselected _ _ _ _ _ _ (logged _ w) n Hp Hk).
  - intros HV HE Hk. rewrite HV, HE.
    rewrite Expr_dispatch_route, Expr_const_dispatch_route,
      Expr_mutator_dispatch_route.
    split; [|split; [|split]];
      apply (route_unselected _ _ _ _ _ _ (logged _ w) n Hp);
      try exact Hk.
    rewrite Hk. reflexivity.
Qed.

(** X7.  The Val-level and Expr-level templates do not test the category:
    the overloads the three Val-level templates call are decided by the
    kind tag and, for a Scalar, the secondary tag of the node, whatever
    [isVal], [isExpr] and the Expr tag answer; those the three Expr-level
    templates call are decided by the Expr tag. *)
Theorem concrete_level_dispatch_ignores_the_category
    (Tv : Overloads HS unit) (Tc : ConstOverloads HS) (Tm : Overloads HS N)
    a1 a2 p1 p2 w1 w2 n1 n2 obj1 obj2 :
  heap w1 !! p1 = Some n1 -> heap w2 !! p2 = Some n2 ->
  arg_object (objs w1) a1 = Some obj1 ->
  arg_object (objs w2) a2 = Some obj2 ->
  (getValType n1 = getValType n2 ->
   (getValType n1 = ValType.Scalar -> getDataType n1 = getDataType n2) ->
     overloads_called w1 (Val_dispatch Tv a1 p1 w1)
       = overloads_called w2 (Val_dispatch Tv a2 p2 w2) /\
     overloads_called w1 (Val_const_dispatch Tc a1 p1 w1)
       = overloads_called w2 (Val_const_dispatch Tc a2 p2 w2) /\
     overloads_called w1 (Val_mutator_dispatch Tm a1 p1 w1)
       = overloads_called w2 (Val_mutator_dispatch Tm a2 p2 w2)) /\
  (getExprType n1 = getExprType n2 ->
     overloads_called w1 (Expr_dispatch Tv a1 p1 w1)
       = overloads_called w2 (Expr_dispatch Tv a2 p2 w2) /\
     overloads_called w1 (Expr_const_dispatch Tc a1 p1 w1)
       = overloads_called w2 (Expr_const_dispatch Tc a2 p2 w2) /\
     overloads_called w1 (Expr_mutator_dispatch Tm a1 p1 w1)
       = overloads_called w2 (Expr_mutator_dispatch Tm a2 p2 w2)).
Proof.
  intros Hp1 Hp2 Hobj1 Hobj2.
  destruct (Visit_called_by_tags Tv a1 p1 w1 n1 obj1 Hp1 Hobj1)
    as (-> & -> & _).
  destruct (Visit_called_by_tags Tv a2 p2 w2 n2 obj2 Hp2 Hobj2)
    as (-> & -> & _).
  destruct (ConstVisit_called_by_tags Tc a1 p1 w1 n1 obj1 Hp1 Hobj1)
    as (-> & -> & _).
  destruct (ConstVisit_called_by_tags Tc a2 p2 w2 n2 obj2 Hp2 Hobj2)
    as (-> & -> & _).
  destruct (Mutate_called_by_tags Tm a1 p1 w1 n1 obj1 Hp1 Hobj1)
    as (-> & -> & _).
  destruct (Mutate_called_by_tags Tm a2 p2 w2 n2 obj2 Hp2 Hobj2)
    as (-> & -> & _).
  split.
  - intros HVT HDT.
    assert (Hk : Val_kind n1 = Val_kind n2).
    { unfold Val_kind. rewrite <- HVT.
      destruct (getValType n1); try reflexivity. rewrite <- HDT; reflexivity. }
    rewrite Hk. auto.
  - intros HET.
    assert (Hk : Expr_kind n1 = Expr_kind n2).
    { unfold Expr_kind. rewrite HET. reflexivity. }
    rewrite Hk. auto.
Qed.

Lemma Expr_kind_on_Expr_side e c :
  Expr_kind e = Some c -> Class.on_Expr_side (Class.Concrete c) = true.
Proof.
  unfold Expr_kind. destruct (getExprType e); intros Hk; try discriminate;
    injection Hk as <-; reflexivity.
Qed.

Lemma concrete_calls_one g :
  Class.is_concrete (target g) = true -> concrete_calls [g] = [g].
Proof.
  intros Hg. unfold concrete_calls. cbn. rewrite Hg.
  destruct (decide (true = true)); [reflexivity | congruence].
Qed.

Lemma concrete_calls_none g :
  Class.is_concrete (target g) = false -> concrete_calls [g] = [].
Proof.
  intros Hg. unfold concrete_calls. cbn. rewrite Hg.
  destruct (decide (false = true)); [discriminate | reflexivity].
Qed.

(** X8.  The category of the entry matters: for a node that answers yes to
    [isVal] and whose Expr tag names an Expr kind, dispatching through the
    Statement-level template of a base class and dispatching through the
    Expr-level template never have the same effect.  The Expr-level
    template calls the overload for that Expr kind; the Statement-level
    template calls no overload of the Expr side. *)
Theorem Statement_level_differs_from_Expr_level_on_a_Val
    (T : Overloads HS unit) a p w n obj c :
  heap w !! p = Some n ->
  arg_object (objs w) a = Some obj ->
  isVal n = true -> Expr_kind n = Some c ->
  ~ same_effect (Statement_dispatch (OptOutDispatch T) a p w)
      (Expr_dispatch T a p w).
Proof.
  intros Hp Hobj HV Hk (_ & _ & _ & Hcalls).
  rewrite (Statement_dispatch_OptOutDispatch _ _ _ _ n Hp), HV in Hcalls.
  rewrite Val_dispatch_route, Expr_dispatch_route, !commit_calls in Hcalls.
  cbn [logged heap objs calls] in Hcalls.
  rewrite !concrete_calls_app in Hcalls.
  rewrite concrete_calls_none in Hcalls by reflexivity.
  rewrite app_nil_r in Hcalls. apply app_inv_head in Hcalls.
  pose proof (route_on_Val_side Visit T "Unknown valtype in dispatch!"
                a p (heap w) (objs w)) as Hside.
  assert (Hnew : (route Visit T Expr_kind "Unknown exprtype in dispatch!"
                    a p (heap w) (objs w)).2
                 = [mkCall Visit (Class.Concrete c) p]).
  { unfold route. rewrite Hp, Hk, Hobj.
    destruct (T c obj (heap w) p) as [[r obj'] h']. reflexivity. }
  rewrite Hnew, concrete_calls_one in Hcalls by reflexivity.
  assert (Hin : mkCall Visit (Class.Concrete c) p
                ∈ (route Visit T Val_kind "Unknown valtype in dispatch!"
                     a p (heap w) (objs w)).2).
  { assert (Hin' : mkCall Visit (Class.Concrete c) p
                   ∈ [mkCall Visit (Class.Concrete c) p])
      by apply list_elem_of_here.
    rewrite <- Hcalls in Hin'. unfold concrete_calls in Hin'.
    apply list_elem_of_filter in Hin'. apply Hin'. }
  rewrite Forall_forall in Hside. specialize (Hside _ Hin).
  cbn [target] in Hside.
  rewrite (Expr_kind_on_Expr_side n c Hk) in Hside. discriminate.
Qed.

Lemma one_call_throws {A} f c (body : overload HS A) a obj p w e obj' h' :
  body obj (heap w) p = (Raised e, obj', h') ->
  (one_call f c body a obj p w).1 = Thrown e /\
  heap (one_call f c body a obj p w).2 = h'.
Proof. intros Hb. unfold one_call. rewrite Hb. split; reflexivity. Qed.

(** X9.  An exception of a handler overload passes through the dispatch:
    when the overload the switch calls for the node throws, the dispatch
    ends with that same exception, at the Val or Expr level and at the
    Statement level of the base classes alike, for Visit and for Mutate.
    It is never turned into a return or into the internal assertion, and
    the heap is the one the overload left when it threw. *)
Theorem overload_exception_passes_through
    (Tv : Overloads HS unit) (Tm : Overloads HS N)
    a p w n obj c e obj' h' :
  heap w !! p = Some n ->
  arg_object (objs w) a = Some obj ->
  (isVal n = true -> Val_kind n = Some c ->
     (Tv c obj (heap w) p = (Raised e, obj', h') ->
        (Val_dispatch Tv a p w).1 = Thrown e /\
        heap (Val_dispatch Tv a p w).2 = h' /\
        (Statement_dispatch (OptOutDispatch Tv) a p w).1 = Thrown e /\
        heap (Statement_dispatch (OptOutDispatch Tv) a p w).2 = h') /\
     (Tm c obj (heap w) p = (Raised e, obj', h') ->
        (Val_mutator_dispatch Tm a p w).1 = Thrown e /\
        heap (Val_mutator_dispatch Tm a p w).2 = h' /\
        (Statement_mutator_dispatch (OptOutMutator Tm) a p w).1 = Thrown e /\
        heap (Statement_mutator_dispatch (OptOutMutator Tm) a p w).2 = h')) /\
  (isVal n = false -> isExpr n = true -> Expr_kind n = Some c ->
     (Tv c obj (heap w) p = (Raised e, obj', h') ->
        (Expr_dispatch Tv a p w).1 = Thrown e /\
        heap (Expr_dispatch Tv a p w).2 = h' /\
        (Statement_dispatch (OptOutDispatch Tv) a p w).1 = Thrown e /\
        heap (Statement_dispatch (OptOutDispatch Tv) a p w).2 = h') /\
     (Tm (mutate_overload_called c) obj (heap w) p = (Raised e, obj', h') ->
        (Expr_mutator_dispatch Tm a p w).1 = Thrown e /\
        heap (Expr_mutator_dispatch Tm a p w).2 = h' /\
        (Statement_mutator_dispatch (OptOutMutator Tm) a p w).1 = Thrown e /\
        heap (Statement_mutator_dispatch (OptOutMutator Tm) a p w).2 = h')).
Proof.
  intros Hp Hobj.
  rewrite (Statement_dispatch_OptOutDispatch _ _ _ _ n Hp),
    (Statement_mutator_dispatch_OptOutMutator _ _ _ _ n Hp).
  split.
  - intros HV Hk. rewrite HV.
    rewrite !Val_dispatch_route, !Val_mutator_dispatch_route.
    rewrite (route_selected _ _ _ _ _ _ w n c obj Hp Hk Hobj).
    rewrite (route_selected _ _ _ _ _ _ (logged _ w) n c obj Hp Hk Hobj).
    rewrite (route_selected _ Tm _ _ _ _ w n c obj Hp Hk Hobj).
    rewrite (route_selected _ Tm _ _ _ _ (logged _ w) n c obj Hp Hk Hobj).
    split; intros Hb.
    + destruct (one_call_throws Visit c (Tv c) a obj p w e obj' h' Hb).
      destruct (one_call_throws Visit c (Tv c) a obj p
                  (logged (mkCall Visit Class.Val p) w) e obj' h' Hb).
      auto.
    + destruct (one_call_throws Mutate c (Tm c) a obj p w e obj' h' Hb).
      destruct (one_call_throws Mutate c (Tm c) a obj p
                  (logged (mkCall Mutate Class.Val p) w) e obj' h' Hb).
      auto.
  - intros HV HE Hk. rewrite HV, HE.
    assert (Hsel : mutate_overload_called <$> Expr_kind n
                   = Some (mutate_overload_called c))
      by (rewrite Hk; reflexivity).
    rewrite !Expr_dispatch_route, !Expr_mutator_dispatch_route.
    rewrite (route_selected _ _ _ _ _ _ w n c obj Hp Hk Hobj).
    rewrite (route_selected _ _ _ _ _ _ (logged _ w) n c obj Hp Hk Hobj).
    rewrite (route_selected _ Tm _ _ _ _ w n _ obj Hp Hsel Hobj).
    rewrite (route_selected _ Tm _ _ _ _ (logged _ w) n _ obj Hp Hsel Hobj).
    split; intros Hb.
    + destruct (one_call_throws Visit c (Tv c) a obj p w e obj' h' Hb).
      destruct (one_call_throws Visit c (Tv c) a obj p
                  (logged (mkCall Visit Class.Expr p) w) e obj' h' Hb).
      auto.
    + destruct (one_call_throws Mutate (mutate_overload_called c)
                  (Tm (mutate_overload_called c)) a obj p w e obj' h' Hb).
      destruct (one_call_throws Mutate (mutate_overload_called c)
                  (Tm (mutate_overload_called c)) a obj p
                  (logged (mkCall Mutate Class.Expr p) w) e obj' h' Hb).
      auto.
Qed.

End Coverage.

(** ** The further properties at sample inputs *)

Lemma Const_overload_matches_kind_witness :
  heap Sample.world !! 1%N = Some Sample.a_Float /\
  arg_object (objs Sample.world) (Indirect 0) = Some [] /\
  Val_kind Sample.a_Float = Some Class.Float /\
  Val_const_dispatch Sample.reader (Indirect 0) 1%N Sample.world
  = (Returned tt,
     {| heap := Sample.nodes; objs := [[5%N]];
        calls := [mkCall ConstVisit (Class.Concrete Class.Float) 1%N] |}).
Proof.
  assert (Hp : heap Sample.world !! 1%N = Some Sample.a_Float)
    by (vm_compute; reflexivity).
  assert (Hobj : arg_object (objs Sample.world) (Indirect 0) = Some [])
    by reflexivity.
  split; [exact Hp|]. split; [exact Hobj|]. split; [reflexivity|].
  destruct (Const_overload_matches_kind Sample.reader (Indirect 0) 1%N
              Sample.world Sample.a_Float [] Hp Hobj) as [HVal _].
  rewrite (HVal Class.Float eq_refl). reflexivity.
Defined.

Lemma Mutate_overload_matches_kind_witness :
  heap Sample.world !! 2%N = Some Sample.a_ForLoop /\
  arg_object (objs Sample.world) (Indirect 0) = Some [] /\
  Expr_kind Sample.a_ForLoop = Some Class.ForLoop /\
  Class.ForLoop <> Class.IfThenElse /\
  calls (Expr_mutator_dispatch Sample.renamer (Indirect 0) 2%N
           Sample.world).2
  = [mkCall Mutate (Class.Concrete Class.ForLoop) 2%N].
Proof.
  assert (Hp : heap Sample.world !! 2%N = Some Sample.a_ForLoop)
    by (vm_compute; reflexivity).
  assert (Hobj : arg_object (objs Sample.world) (Indirect 0) = Some [])
    by reflexivity.
  assert (Hne : Class.ForLoop <> Class.IfThenElse) by discriminate.
  split; [exact Hp|]. split; [exact Hobj|]. split; [reflexivity|].
  split; [exact Hne|].
  destruct (Mutate_overload_matches_kind Sample.renamer (Indirect 0) 2%N
              Sample.world Sample.a_ForLoop [] Hp Hobj) as [_ HExpr].
  rewrite (HExpr Class.ForLoop eq_refl Hne). reflexivity.
Defined.

Lemma Mutate_returns_the_overload_result_witness :
  heap Sample.world !! 2%N = Some Sample.a_ForLoop /\
  arg_object (objs Sample.world) (Indirect 0) = Some [] /\
  (Sample.renamer Class.ForLoop [] Sample.nodes 2%N).1.1 = Normal 1202%N /\
  (Expr_mutator_dispatch Sample.renamer (Indirect 0) 2%N Sample.world).1
  = Returned 1202%N /\
  (Statement_mutator_dispatch (OptOutMutator Sample.renamer) (Indirect 0)
     2%N Sample.world).1
  = Returned 1202%N.
Proof.
  assert (Hp : heap Sample.world !! 2%N = Some Sample.a_ForLoop)
    by (vm_compute; reflexivity).
  assert (Hobj : arg_object (objs Sample.world) (Indirect 0) = Some [])
    by reflexivity.
  assert (Hne : Class.ForLoop <> Class.IfThenElse) by discriminate.
  split; [exact Hp|]. split; [exact Hobj|]. split; [reflexivity|].
  destruct (Mutate_returns_the_overload_result Sample.renamer (Indirect 0)
              2%N Sample.world Sample.a_ForLoop [] Class.ForLoop 1202%N
              [12%N] (Sample.renamer Class.ForLoop [] Sample.nodes 2%N).2
              Hp Hobj eq_refl) as [_ HExpr].
  destruct (HExpr eq_refl Hne) as [H1 H2].
  split; [exact H1 | exact (H2 eq_refl eq_refl)].
Defined.

Lemma handle_Statement_reaches_the_concrete_overload_witness :
  heap Sample.world !! 1%N = Some Sample.a_Float /\
  objs Sample.world !! 0 = Some [] /\
  isVal Sample.a_Float = true /\
  Val_kind Sample.a_Float = Some Class.Float /\
  OptOutDispatch_handle_Statement Sample.recorder 0 1%N Sample.world
  = (Returned tt,
     {| heap := Sample.nodes; objs := [[5%N]];
        calls := [mkCall Visit Class.Val 1%N;
                  mkCall Visit (Class.Concrete Class.Float) 1%N] |}).
Proof.
  assert (Hp : heap Sample.world !! 1%N = Some Sample.a_Float)
    by (vm_compute; reflexivity).
  assert (Hobj : objs Sample.world !! 0 = Some []) by reflexivity.
  split; [exact Hp|]. split; [exact Hobj|]. split; [reflexivity|].
  split; [reflexivity|].
  destruct (handle_Statement_reaches_the_concrete_overload Sample.recorder
              Sample.reader Sample.renamer 0 1%N Sample.world Sample.a_Float
              [] Class.Float Hp Hobj) as [HVal _].
  destruct (HVal eq_refl eq_refl) as [-> _]. reflexivity.
Defined.

Lemma unmatched_tag_below_the_Statement_level_witness :
  heap Sample.world !! 4%N = Some Sample.a_stray_Val /\
  isVal Sample.a_stray_Val = true /\
  Val_kind Sample.a_stray_Val = None /\
  Statement_dispatch (OptOutDispatch Sample.recorder) (Direct []) 4%N
    Sample.world
  = (InternalAssert "Unknown valtype in dispatch!",
     logged (mkCall Visit Class.Val 4%N) Sample.world).
Proof.
  assert (Hp : heap Sample.world !! 4%N = Some Sample.a_stray_Val)
    by (vm_compute; reflexivity).
  split; [exact Hp|]. split; [reflexivity|]. split; [reflexivity|].
  destruct (unmatched_tag_below_the_Statement_level Sample.recorder
              Sample.reader Sample.renamer (Direct []) 4%N Sample.world
              Sample.a_stray_Val Hp) as [HVal _].
  destruct (HVal eq_refl eq_refl) as [H _]. exact H.
Defined.

Lemma concrete_level_dispatch_ignores_the_category_witness :
  heap Sample.world !! 5%N = Some Sample.a_hybrid /\
  heap Sample.world !! 6%N = Some Sample.an_orphan /\
  isVal Sample.a_hybrid <> isVal Sample.an_orphan /\
  getValType Sample.a_hybrid = getValType Sample.an_orphan /\
  overloads_called Sample.world
    (Val_dispatch Sample.recorder (Indirect 0) 5%N Sample.world)
  = overloads_called Sample.world
      (Val_dispatch Sample.recorder (Direct [7%N]) 6%N Sample.world).
Proof.
  assert (Hp1 : heap Sample.world !! 5%N = Some Sample.a_hybrid)
    by (vm_compute; reflexivity).
  assert (Hp2 : heap Sample.world !! 6%N = Some Sample.an_orphan)
    by (vm_compute; reflexivity).
  split; [exact Hp1|]. split; [exact Hp2|]. split; [discriminate|].
  split; [reflexivity|].
  destruct (concrete_level_dispatch_ignores_the_category Sample.recorder
              Sample.reader Sample.renamer (Indirect 0) (Direct [7%N])
              5%N 6%N Sample.world Sample.world Sample.a_hybrid
              Sample.an_orphan [] [7%N] Hp1 Hp2 eq_refl eq_refl)
    as [HVal _].
  assert (Hsc : getValType Sample.a_hybrid = ValType.Scalar ->
                getDataType Sample.a_hybrid = getDataType Sample.an_orphan)
    by discriminate.
  destruct (HVal eq_refl Hsc) as [H _]. exact H.
Defined.

Lemma Statement_level_differs_from_Expr_level_on_a_Val_witness :
  heap Sample.world !! 5%N = Some Sample.a_hybrid /\
  isVal Sample.a_hybrid = true /\
  Expr_kind Sample.a_hybrid = Some Class.Merge /\
  ~ same_effect
      (Statement_dispatch (OptOutDispatch Sample.recorder) (Indirect 0) 5%N
         Sample.world)
      (Expr_dispatch Sample.recorder (Indirect 0) 5%N Sample.world).
Proof.
  assert (Hp : heap Sample.world !! 5%N = Some Sample.a_hybrid)
    by (vm_compute; reflexivity).
  split; [exact Hp|]. split; [reflexivity|]. split; [reflexivity|].
  exact (Statement_level_differs_from_Expr_level_on_a_Val Sample.recorder
           (Indirect 0) 5%N Sample.world Sample.a_hybrid [] Class.Merge
           Hp eq_refl eq_refl eq_refl).
Defined.

Lemma overload_exception_passes_through_witness :
  heap Sample.world !! 1%N = Some Sample.a_Float /\
  arg_object (objs Sample.world) (Indirect 0) = Some [] /\
  isVal Sample.a_Float = true /\
  Val_kind Sample.a_Float = Some Class.Float /\
  Unimplemented.visitor Class.Float [] Sample.nodes 1%N
  = (Raised "Handle not overriden.", [], Sample.nodes) /\
  (Val_dispatch Unimplemented.visitor (Indirect 0) 1%N Sample.world).1
  = Thrown "Handle not overriden." /\
  (Statement_dispatch (OptOutDispatch Unimplemented.visitor) (Indirect 0)
     1%N Sample.world).1
  = Thrown "Handle not overriden.".
Proof.
  assert (Hp : heap Sample.world !! 1%N = Some Sample.a_Float)
    by (vm_compute; reflexivity).
  assert (Hobj : arg_object (objs Sample.world) (Indirect 0) = Some [])
    by reflexivity.
  split; [exact Hp|]. split; [exact Hobj|]. split; [reflexivity|].
  split; [reflexivity|]. split; [reflexivity|].
  destruct (overload_exception_passes_through Unimplemented.visitor
              Unimplemented.mutator (Indirect 0) 1%N Sample.world
              Sample.a_Float [] Class.Float "Handle not overriden." []
              Sample.nodes Hp Hobj) as [HVal _].
  destruct (HVal eq_refl eq_refl) as [HVisit _].
  destruct (HVisit eq_refl) as (H1 & _ & H2 & _).
  split; [exact H1 | exact H2].
Defined.
